(** * ableton-js: Chain, DrumChain and ChainMixerDevice over the remote-property client

    The three facade classes are embedded method by method as programs that
    issue calls to the [Ableton] client object they hold.  The client itself
    ("../index") is developed in the second half of the file as the request
    correlator and the listener registry described by the specification. *)

From stdpp Require Import base option list strings gmap pretty.
From Stdlib Require Import ZArith Lia.

Set Warnings "-register-all".
Set Default Proof Using "Type".

(** ** Values and errors *)

(** TypeScript's [number] as a field of a snapshot or the argument of a
    setter; the facades only carry these numbers, they never compute with
    them nor print them. *)
Definition number := Z.

(** A value as it travels between host and caller: what [getProp] resolves
    to and what [setProp] is given. *)
Inductive Value :=
| VUndefined
| VNull
| VNum (n : number)
| VStr (s : string)
| VBool (b : bool)
| VArr (xs : list Value)
| VObj (fields : gmap string Value).

(** The error kinds of the client, and [JsError] for an exception of the
    language itself (a TypeError, say). *)
Inductive Error :=
| Timeout
| TransportError
| ProtocolError (detail : string)
| DecodeError
| ShuttingDown
| JsError (name : string).


(** How a promise (or a synchronous call) ends. *)
Inductive Settled (A : Type) :=
| Resolved (a : A)
| Rejected (e : Error).
Arguments Resolved {A} a.
Arguments Rejected {A} e.

#[global] Instance Settled_fmap : FMap Settled :=
  λ A B f o, match o with
             | Resolved a => Resolved (f a)
             | Rejected e => Rejected e
             end.

(** Embedding of typed data into [Value]. *)
Class ToValue (A : Type) := toValue : A → Value.
#[global] Instance number_ToValue : ToValue number := VNum.
#[global] Instance string_ToValue : ToValue string := VStr.
#[global] Instance bool_ToValue : ToValue bool := VBool.
#[global] Instance list_ToValue `{ToValue A} : ToValue (list A) :=
  λ xs, VArr (toValue <$> xs).

(** ** Raw snapshots (the [Raw...] interfaces) *)

(** [{ id: number; }] *)
Module IdRef.
Record t := { id : number }.
#[global] Instance IdRef_ToValue : ToValue t :=
  λ r, VObj {[ "id" := VNum (id r) ]}.
End IdRef.

(** [{ id: number; type: string; }] *)
Module DeviceRef.
Record t := { id : number; type : string }.
#[global] Instance DeviceRef_ToValue : ToValue t :=
  λ r, VObj (<["id" := VNum (id r)]> {[ "type" := VStr (type r) ]}).
End DeviceRef.

(** [{ id: number; value: number; }] *)
Module ParamRef.
Record t := { id : number; value : number }.
#[global] Instance ParamRef_ToValue : ToValue t :=
  λ r, VObj (<["id" := VNum (id r)]> {[ "value" := VNum (value r) ]}).
End ParamRef.

Module RawChain.
Record t := {
  id : number;
  name : string;
  color : number;
  color_index : number;
  is_auto_colored : bool;
  mute : bool;
  solo : bool;
  devices : list DeviceRef.t;
  mixer_device : IdRef.t;
}.
End RawChain.

(** [RawDrumChain extends RawChain] *)
Module RawDrumChain.
Record t := {
  base : RawChain.t;
  choke_group : number;
  out_of_key : bool;
  auto_select_on_receive : bool;
}.
End RawDrumChain.

Module RawChainMixerDevice.
Record t := {
  id : number;
  canonical_parent : IdRef.t;
  chain_activator : ParamRef.t;
  panning : ParamRef.t;
  sends : list ParamRef.t;
  volume : ParamRef.t;
}.
End RawChainMixerDevice.

(** [Record<string, unknown>] *)
Abbreviation JsObject := (gmap string Value).

(** ** What the facades import but do not define *)

(** [Ableton] is the client object, [Listener] a callback [() => void],
    [Device] and [DeviceParameter] the sibling wrappers with their
    two-argument constructors: [new Device(ableton, data)] returns the
    wrapper or throws, and calls nothing on the client.
    [asRawChainMixerDevice] is the unchecked passage of an [any] into a
    parameter declared [RawChainMixerDevice].  [JsNumber] is a number of
    the language as an index argument receives it (a double: integer or
    not, NaN, an infinity) and [numberToString] its spelling in a template
    literal. *)
Class Externals := {
  Ableton : Type;
  Listener : Type;
  Device : Type;
  DeviceParameter : Type;
  newDevice : Ableton → Value → Settled Device;
  newDeviceParameter : Ableton → Value → Settled DeviceParameter;
  asRawChainMixerDevice : Value → RawChainMixerDevice.t;
  JsNumber : Type;
  numberToString : JsNumber → string;
}.

(** ** Programs over the client *)

Section Programs.
Context `{Externals}.

(** One call of a method of the client object [on].  A call settles:
    for [getProp] and [setProp] that is the settling of the promise they
    return, for [addListener] and [removeListener] the return, or the
    exception, of the call itself. *)
Inductive CoreCall :=
| getProp (on : Ableton) (ns : string) (nsid : Value) (prop : string)
| setProp (on : Ableton) (ns : string) (nsid : Value) (prop : string)
          (value : Value)
| addListener (on : Ableton) (key : string) (listener : Listener)
| removeListener (on : Ableton) (key : string) (listener : Listener).

(** A method body: it returns, throws, or calls the client and goes on
    with the way that call settled. *)
Inductive Prog (A : Type) : Type :=
| Ret (a : A)
| Throw (e : Error)
| Call (c : CoreCall) (k : Settled Value → Prog A).
Global Arguments Ret {A} a.
Global Arguments Throw {A} e.
Global Arguments Call {A} c k.

Fixpoint bind {A B} (p : Prog A) (f : A → Prog B) : Prog B :=
  match p with
  | Ret a => f a
  | Throw e => Throw e
  | Call c k => Call c (λ o, bind (k o) f)
  end.

(** [try { p } catch (error) { handler error }] *)
Fixpoint try_catch {A} (p : Prog A) (handler : Error → Prog A) : Prog A :=
  match p with
  | Ret a => Ret a
  | Throw e => handler e
  | Call c k => Call c (λ o, try_catch (k o) handler)
  end.

(** [await this.ableton.m(...)], and [return this.ableton.m(...)] in an
    async method: the value the call resolves to, or its rejection
    rethrown. *)
Definition await (c : CoreCall) : Prog Value :=
  Call c (λ o, match o with
               | Resolved v => Ret v
               | Rejected e => Throw e
               end).

(** [this.ableton.m(...);] as a statement of a [void] method. *)
Definition perform (c : CoreCall) : Prog unit :=
  Call c (λ o, match o with
               | Resolved _ => Ret tt
               | Rejected e => Throw e
               end).

(** [new C(...)] as an expression: the object constructed, or the
    exception of the constructor thrown on. *)
Definition construct {A} (r : Settled A) : Prog A :=
  match r with
  | Resolved a => Ret a
  | Rejected e => Throw e
  end.

(** The callback of a [map] applied to the elements from left to right:
    the first exception ends the traversal. *)
Fixpoint map_each {B} (f : Value → Settled B) (xs : list Value)
  : Settled (list B) :=
  match xs with
  | [] => Resolved []
  | x :: rest =>
      match f x with
      | Resolved b =>
          match map_each f rest with
          | Resolved bs => Resolved (b :: bs)
          | Rejected e => Rejected e
          end
      | Rejected e => Rejected e
      end
  end.

(** [data.map(f)]: only an array has a [map]. *)
Definition js_map {B} (data : Value) (f : Value → Settled B)
  : Prog (list B) :=
  match data with
  | VArr xs => construct (map_each f xs)
  | _ => Throw (JsError "TypeError")
  end.

(** A client is anything that answers calls, with a state of its own. *)
Definition Handler (S : Type) : Type := CoreCall → S → Settled Value * S.

(** Running a method against a client: the calls made in order, the
    client's final state, and how the method ended. *)
Fixpoint exec {S A} (h : Handler S) (p : Prog A) (s : S)
  : list CoreCall * S * Settled A :=
  match p with
  | Ret a => ([], s, Resolved a)
  | Throw e => ([], s, Rejected e)
  | Call c k =>
      let '(o, s1) := h c s in
      let '(calls, s2, r) := exec h (k o) s1 in
      (c :: calls, s2, r)
  end.
End Programs.

#[global] Instance Prog_ret `{Externals} : MRet Prog := λ A a, Ret a.
#[global] Instance Prog_bind `{Externals} : MBind Prog := λ A B f p, bind p f.


(** The object literal [{ ...spread, k1: v1, ..., kn: vn }]: properties are
    defined left to right, a later one replacing an earlier one of the
    same name. *)
Definition js_object (spread : JsObject) (props : list (string * Value))
  : JsObject :=
  foldl (λ o kv, <[kv.1 := kv.2]> o) spread props.

(** The value the literal gives the property [k], if it names it. *)
Fixpoint last_defined (k : string) (props : list (string * Value))
  : option Value :=
  match props with
  | [] => None
  | (k', v) :: rest =>
      match last_defined k rest with
      | Some w => Some w
      | None => if decide (k' = k) then Some v else None
      end
  end.

(** What a method is for, as its name and its doc comment announce it.
    The theorems below compare every method body with its entry. *)
Inductive Purpose `{Externals} :=
| Reads (prop : string)
| Writes (prop : string) (value : Value)
| Wraps (prop : string)
| Probes (prop : string)
| Listens (prop : string) (listener : Listener)
| Unlistens (prop : string) (listener : Listener)
| Local.

(** ** class ChainMixerDevice *)

Module ChainMixerDevice.
Section ChainMixerDevice.
Context `{Externals}.

Record t := { ableton : Ableton; raw : RawChainMixerDevice.t; path : string }.

Definition constructor (ableton : Ableton) (raw : RawChainMixerDevice.t)
    (path : option string) : Prog t :=
  Ret {| ableton := ableton; raw := raw; path := default "" path |}.

Definition id (this : t) : Prog number :=
  Ret (RawChainMixerDevice.id (raw this)).

Definition getCanonicalParent (this : t) : Prog Value :=
  await (getProp (ableton this) (path this) VUndefined "canonical_parent").

Definition getChainActivator (this : t) : Prog DeviceParameter :=
  activatorData ←
    await (getProp (ableton this) (path this) VUndefined "chain_activator");
  construct (newDeviceParameter (ableton this) activatorData).

Definition getPanning (this : t) : Prog DeviceParameter :=
  panningData ←
    await (getProp (ableton this) (path this) VUndefined "panning");
  construct (newDeviceParameter (ableton this) panningData).

Definition getSends (this : t) : Prog (list DeviceParameter) :=
  sendsData ← await (getProp (ableton this) (path this) VUndefined "sends");
  js_map sendsData (λ sendData, newDeviceParameter (ableton this) sendData).

Definition getVolume (this : t) : Prog DeviceParameter :=
  volumeData ←
    await (getProp (ableton this) (path this) VUndefined "volume");
  construct (newDeviceParameter (ableton this) volumeData).

Definition getSend (this : t) (index : JsNumber)
  : Prog (option DeviceParameter) :=
  try_catch
    (sendData ←
       await (getProp (ableton this) (path this) VUndefined
                ("sends " +:+ numberToString index));
     deviceParameter ←
       construct (newDeviceParameter (ableton this) sendData);
     Ret (Some deviceParameter))
    (λ error, Ret None).

Definition addCanonicalParentListener (this : t) (listener : Listener)
  : Prog unit :=
  perform (addListener (ableton this) "canonical_parent" listener).

Definition removeCanonicalParentListener (this : t) (listener : Listener)
  : Prog unit :=
  perform (removeListener (ableton this) "canonical_parent" listener).

Definition addChainActivatorListener (this : t) (listener : Listener)
  : Prog unit :=
  perform (addListener (ableton this) "chain_activator" listener).

Definition removeChainActivatorListener (this : t) (listener : Listener)
  : Prog unit :=
  perform (removeListener (ableton this) "chain_activator" listener).

Definition addPanningListener (this : t) (listener : Listener) : Prog unit :=
  perform (addListener (ableton this) "panning" listener).

Definition removePanningListener (this : t) (listener : Listener)
  : Prog unit :=
  perform (removeListener (ableton this) "panning" listener).

Definition addSendsListener (this : t) (listener : Listener) : Prog unit :=
  perform (addListener (ableton this) "sends" listener).

Definition removeSendsListener (this : t) (listener : Listener) : Prog unit :=
  perform (removeListener (ableton this) "sends" listener).

Definition addVolumeListener (this : t) (listener : Listener) : Prog unit :=
  perform (addListener (ableton this) "volume" listener).

Definition removeVolumeListener (this : t) (listener : Listener)
  : Prog unit :=
  perform (removeListener (ableton this) "volume" listener).

Definition toJSON (this : t) : Prog JsObject :=
  Ret (js_object ∅ [
    ("id", toValue (RawChainMixerDevice.id (raw this)));
    ("canonical_parent",
       toValue (RawChainMixerDevice.canonical_parent (raw this)));
    ("chain_activator",
       toValue (RawChainMixerDevice.chain_activator (raw this)));
    ("panning", toValue (RawChainMixerDevice.panning (raw this)));
    ("sends", toValue (RawChainMixerDevice.sends (raw this)));
    ("volume", toValue (RawChainMixerDevice.volume (raw this)))
  ]).

End ChainMixerDevice.
End ChainMixerDevice.

(** ** class Chain *)

Module Chain.
Section Chain.
Context `{Externals}.

Record t := { ableton : Ableton; raw : RawChain.t; path : string }.

Definition constructor (ableton : Ableton) (raw : RawChain.t)
    (path : option string) : Prog t :=
  Ret {| ableton := ableton; raw := raw; path := default "" path |}.

Definition id (this : t) : Prog number :=
  Ret (RawChain.id (raw this)).

Definition getName (this : t) : Prog Value :=
  await (getProp (ableton this) (path this) VUndefined "name").

Definition setName (this : t) (name : string) : Prog Value :=
  await (setProp (ableton this) (path this) VUndefined "name" (toValue name)).

Definition getColor (this : t) : Prog Value :=
  await (getProp (ableton this) (path this) VUndefined "color").

Definition setColor (this : t) (color : number) : Prog Value :=
  await (setProp (ableton this) (path this) VUndefined "color" (toValue color)).

Definition getColorIndex (this : t) : Prog Value :=
  await (getProp (ableton this) (path this) VUndefined "color_index").

Definition setColorIndex (this : t) (colorIndex : number) : Prog Value :=
  await (setProp (ableton this) (path this) VUndefined "color_index" (toValue colorIndex)).

Definition getIsAutoColored (this : t) : Prog Value :=
  await (getProp (ableton this) (path this) VUndefined "is_auto_colored").

Definition setIsAutoColored (this : t) (autoColored : bool) : Prog Value :=
  await (setProp (ableton this) (path this) VUndefined "is_auto_colored" (toValue autoColored)).

Definition getMute (this : t) : Prog Value :=
  await (getProp (ableton this) (path this) VUndefined "mute").

Definition setMute (this : t) (mute : bool) : Prog Value :=
  await (setProp (ableton this) (path this) VUndefined "mute" (toValue mute)).

Definition getSolo (this : t) : Prog Value :=
  await (getProp (ableton this) (path this) VUndefined "solo").

Definition setSolo (this : t) (solo : bool) : Prog Value :=
  await (setProp (ableton this) (path this) VUndefined "solo" (toValue solo)).

Definition getDevices (this : t) : Prog (list Device) :=
  devicesData ←
    await (getProp (ableton this) (path this) VUndefined "devices");
  js_map devicesData (λ deviceData, newDevice (ableton this) deviceData).

Definition getDevice (this : t) (index : JsNumber)
  : Prog (option Device) :=
  try_catch
    (deviceData ←
       await (getProp (ableton this) (path this) VUndefined
                ("devices " +:+ numberToString index));
     device ← construct (newDevice (ableton this) deviceData);
     Ret (Some device))
    (λ error, Ret None).

Definition getMixerDevice (this : t) : Prog ChainMixerDevice.t :=
  mixerData ←
    await (getProp (ableton this) (path this) VUndefined "mixer_device");
  ChainMixerDevice.constructor (ableton this)
    (asRawChainMixerDevice mixerData) None.

Definition addNameListener (this : t) (listener : Listener) : Prog unit :=
  perform (addListener (ableton this) "name" listener).

Definition removeNameListener (this : t) (listener : Listener) : Prog unit :=
  perform (removeListener (ableton this) "name" listener).

Definition addColorListener (this : t) (listener : Listener) : Prog unit :=
  perform (addListener (ableton this) "color" listener).

Definition removeColorListener (this : t) (listener : Listener) : Prog unit :=
  perform (removeListener (ableton this) "color" listener).

Definition addColorIndexListener (this : t) (listener : Listener) : Prog unit :=
  perform (addListener (ableton this) "color_index" listener).

Definition removeColorIndexListener (this : t) (listener : Listener) : Prog unit :=
  perform (removeListener (ableton this) "color_index" listener).

Definition addMuteListener (this : t) (listener : Listener) : Prog unit :=
  perform (addListener (ableton this) "mute" listener).

Definition removeMuteListener (this : t) (listener : Listener) : Prog unit :=
  perform (removeListener (ableton this) "mute" listener).

Definition addSoloListener (this : t) (listener : Listener) : Prog unit :=
  perform (addListener (ableton this) "solo" listener).

Definition removeSoloListener (this : t) (listener : Listener) : Prog unit :=
  perform (removeListener (ableton this) "solo" listener).

Definition addDevicesListener (this : t) (listener : Listener) : Prog unit :=
  perform (addListener (ableton this) "devices" listener).

Definition removeDevicesListener (this : t) (listener : Listener) : Prog unit :=
  perform (removeListener (ableton this) "devices" listener).

Definition addIsAutoColoredListener (this : t) (listener : Listener) : Prog unit :=
  perform (addListener (ableton this) "is_auto_colored" listener).

Definition removeIsAutoColoredListener (this : t) (listener : Listener) : Prog unit :=
  perform (removeListener (ableton this) "is_auto_colored" listener).

Definition toJSON (this : t) : Prog JsObject :=
  Ret (js_object ∅ [
    ("id", toValue (RawChain.id (raw this)));
    ("name", toValue (RawChain.name (raw this)));
    ("color", toValue (RawChain.color (raw this)));
    ("color_index", toValue (RawChain.color_index (raw this)));
    ("is_auto_colored", toValue (RawChain.is_auto_colored (raw this)));
    ("mute", toValue (RawChain.mute (raw this)));
    ("solo", toValue (RawChain.solo (raw this)));
    ("devices", toValue (RawChain.devices (raw this)));
    ("mixer_device", toValue (RawChain.mixer_device (raw this)))
  ]).

End Chain.
End Chain.

(** ** class DrumChain extends Chain *)

Module DrumChain.
Section DrumChain.
Context `{Externals}.

Record t := { ableton : Ableton; raw : RawDrumChain.t; path : string }.

(** The same object seen as a [Chain]: what an inherited method, or
    [super.m()], works on. *)
Definition super (this : t) : Chain.t :=
  {| Chain.ableton := ableton this;
     Chain.raw := RawDrumChain.base (raw this);
     Chain.path := path this |}.

Definition constructor (ableton : Ableton) (raw : RawDrumChain.t)
    (path : option string) : Prog t :=
  c ← Chain.constructor ableton (RawDrumChain.base raw)
        (Some (default "" path));
  Ret {| ableton := Chain.ableton c; raw := raw; path := Chain.path c |}.

Definition getChokeGroup (this : t) : Prog Value :=
  await (getProp (ableton this) (path this) VUndefined "choke_group").

Definition setChokeGroup (this : t) (chokeGroup : number) : Prog Value :=
  await (setProp (ableton this) (path this) VUndefined "choke_group"
           (toValue chokeGroup)).

Definition getOutOfKey (this : t) : Prog Value :=
  await (getProp (ableton this) (path this) VUndefined "out_of_key").

Definition setOutOfKey (this : t) (outOfKey : bool) : Prog Value :=
  await (setProp (ableton this) (path this) VUndefined "out_of_key"
           (toValue outOfKey)).

Definition getAutoSelectOnReceive (this : t) : Prog Value :=
  await (getProp (ableton this) (path this) VUndefined
           "auto_select_on_receive").

Definition setAutoSelectOnReceive (this : t) (autoSelect : bool)
  : Prog Value :=
  await (setProp (ableton this) (path this) VUndefined
           "auto_select_on_receive" (toValue autoSelect)).

Definition addChokeGroupListener (this : t) (listener : Listener)
  : Prog unit :=
  perform (addListener (ableton this) "choke_group" listener).

Definition removeChokeGroupListener (this : t) (listener : Listener)
  : Prog unit :=
  perform (removeListener (ableton this) "choke_group" listener).

Definition addOutOfKeyListener (this : t) (listener : Listener)
  : Prog unit :=
  perform (addListener (ableton this) "out_of_key" listener).

Definition removeOutOfKeyListener (this : t) (listener : Listener)
  : Prog unit :=
  perform (removeListener (ableton this) "out_of_key" listener).

Definition addAutoSelectOnReceiveListener (this : t) (listener : Listener)
  : Prog unit :=
  perform (addListener (ableton this) "auto_select_on_receive" listener).

Definition removeAutoSelectOnReceiveListener (this : t) (listener : Listener)
  : Prog unit :=
  perform (removeListener (ableton this) "auto_select_on_receive" listener).

Definition toJSON (this : t) : Prog JsObject :=
  inherited ← Chain.toJSON (super this);
  Ret (js_object inherited [
    ("choke_group", toValue (RawDrumChain.choke_group (raw this)));
    ("out_of_key", toValue (RawDrumChain.out_of_key (raw this)));
    ("auto_select_on_receive",
       toValue (RawDrumChain.auto_select_on_receive (raw this)))
  ]).

End DrumChain.
End DrumChain.

(** ** Method tables *)

(** What a method hands back to its caller, whatever its declared type. *)
Inductive Result `{Externals} :=
| Number (n : number)
| Plain (v : Value)
| ADevice (d : option Device)
| Devices (ds : list Device)
| AParameter (p : option DeviceParameter)
| ManyParameters (ps : list DeviceParameter)
| Mixer (m : ChainMixerDevice.t)
| Object (o : JsObject)
| Void.

(** [f <$> p]: the method [p], its result seen as a [Result]. *)
#[global] Instance Prog_fmap `{Externals} : FMap Prog :=
  λ A B f p, bind p (λ a, Ret (f a)).

Module ChainMixerDeviceMethod.
Section ChainMixerDeviceMethod.
Context `{Externals}.
Import ChainMixerDevice.

Inductive t :=
| Id
| GetCanonicalParent
| GetChainActivator
| GetPanning
| GetSends
| GetVolume
| GetSend (index : JsNumber)
| AddCanonicalParentListener (listener : Listener)
| RemoveCanonicalParentListener (listener : Listener)
| AddChainActivatorListener (listener : Listener)
| RemoveChainActivatorListener (listener : Listener)
| AddPanningListener (listener : Listener)
| RemovePanningListener (listener : Listener)
| AddSendsListener (listener : Listener)
| RemoveSendsListener (listener : Listener)
| AddVolumeListener (listener : Listener)
| RemoveVolumeListener (listener : Listener)
| ToJSON.

Definition invoke (m : t) (this : ChainMixerDevice.t) : Prog Result :=
  match m with
  | Id => Number <$> id this
  | GetCanonicalParent => Plain <$> getCanonicalParent this
  | GetChainActivator => AParameter ∘ Some <$> getChainActivator this
  | GetPanning => AParameter ∘ Some <$> getPanning this
  | GetSends => ManyParameters <$> getSends this
  | GetVolume => AParameter ∘ Some <$> getVolume this
  | GetSend index => AParameter <$> getSend this index
  | AddCanonicalParentListener l => (λ _, Void) <$> addCanonicalParentListener this l
  | RemoveCanonicalParentListener l => (λ _, Void) <$> removeCanonicalParentListener this l
  | AddChainActivatorListener l => (λ _, Void) <$> addChainActivatorListener this l
  | RemoveChainActivatorListener l => (λ _, Void) <$> removeChainActivatorListener this l
  | AddPanningListener l => (λ _, Void) <$> addPanningListener this l
  | RemovePanningListener l => (λ _, Void) <$> removePanningListener this l
  | AddSendsListener l => (λ _, Void) <$> addSendsListener this l
  | RemoveSendsListener l => (λ _, Void) <$> removeSendsListener this l
  | AddVolumeListener l => (λ _, Void) <$> addVolumeListener this l
  | RemoveVolumeListener l => (λ _, Void) <$> removeVolumeListener this l
  | ToJSON => Object <$> toJSON this
  end.

Definition purpose (m : t) : Purpose :=
  match m with
  | Id | ToJSON => Local
  | GetCanonicalParent => Reads "canonical_parent"
  | GetChainActivator => Wraps "chain_activator"
  | GetPanning => Wraps "panning"
  | GetSends => Wraps "sends"
  | GetVolume => Wraps "volume"
  | GetSend index => Probes ("sends " +:+ numberToString index)
  | AddCanonicalParentListener l => Listens "canonical_parent" l
  | RemoveCanonicalParentListener l => Unlistens "canonical_parent" l
  | AddChainActivatorListener l => Listens "chain_activator" l
  | RemoveChainActivatorListener l => Unlistens "chain_activator" l
  | AddPanningListener l => Listens "panning" l
  | RemovePanningListener l => Unlistens "panning" l
  | AddSendsListener l => Listens "sends" l
  | RemoveSendsListener l => Unlistens "sends" l
  | AddVolumeListener l => Listens "volume" l
  | RemoveVolumeListener l => Unlistens "volume" l
  end.
End ChainMixerDeviceMethod.
End ChainMixerDeviceMethod.

Module ChainMethod.
Section ChainMethod.
Context `{Externals}.
Import Chain.

Inductive t :=
| Id
| GetName
| SetName (name : string)
| GetColor
| SetColor (color : number)
| GetColorIndex
| SetColorIndex (colorIndex : number)
| GetIsAutoColored
| SetIsAutoColored (autoColored : bool)
| GetMute
| SetMute (mute : bool)
| GetSolo
| SetSolo (solo : bool)
| GetDevices
| GetDevice (index : JsNumber)
| GetMixerDevice
| AddNameListener (listener : Listener)
| RemoveNameListener (listener : Listener)
| AddColorListener (listener : Listener)
| RemoveColorListener (listener : Listener)
| AddColorIndexListener (listener : Listener)
| RemoveColorIndexListener (listener : Listener)
| AddMuteListener (listener : Listener)
| RemoveMuteListener (listener : Listener)
| AddSoloListener (listener : Listener)
| RemoveSoloListener (listener : Listener)
| AddDevicesListener (listener : Listener)
| RemoveDevicesListener (listener : Listener)
| AddIsAutoColoredListener (listener : Listener)
| RemoveIsAutoColoredListener (listener : Listener)
| ToJSON.

Definition invoke (m : t) (this : Chain.t) : Prog Result :=
  match m with
  | Id => Number <$> id this
  | GetName => Plain <$> getName this
  | SetName v => Plain <$> setName this v
  | GetColor => Plain <$> getColor this
  | SetColor v => Plain <$> setColor this v
  | GetColorIndex => Plain <$> getColorIndex this
  | SetColorIndex v => Plain <$> setColorIndex this v
  | GetIsAutoColored => Plain <$> getIsAutoColored this
  | SetIsAutoColored v => Plain <$> setIsAutoColored this v
  | GetMute => Plain <$> getMute this
  | SetMute v => Plain <$> setMute this v
  | GetSolo => Plain <$> getSolo this
  | SetSolo v => Plain <$> setSolo this v
  | GetDevices => Devices <$> getDevices this
  | GetDevice index => ADevice <$> getDevice this index
  | GetMixerDevice => Mixer <$> getMixerDevice this
  | AddNameListener l => (λ _, Void) <$> addNameListener this l
  | RemoveNameListener l => (λ _, Void) <$> removeNameListener this l
  | AddColorListener l => (λ _, Void) <$> addColorListener this l
  | RemoveColorListener l => (λ _, Void) <$> removeColorListener this l
  | AddColorIndexListener l => (λ _, Void) <$> addColorIndexListener this l
  | RemoveColorIndexListener l => (λ _, Void) <$> removeColorIndexListener this l
  | AddMuteListener l => (λ _, Void) <$> addMuteListener this l
  | RemoveMuteListener l => (λ _, Void) <$> removeMuteListener this l
  | AddSoloListener l => (λ _, Void) <$> addSoloListener this l
  | RemoveSoloListener l => (λ _, Void) <$> removeSoloListener this l
  | AddDevicesListener l => (λ _, Void) <$> addDevicesListener this l
  | RemoveDevicesListener l => (λ _, Void) <$> removeDevicesListener this l
  | AddIsAutoColoredListener l => (λ _, Void) <$> addIsAutoColoredListener this l
  | RemoveIsAutoColoredListener l => (λ _, Void) <$> removeIsAutoColoredListener this l
  | ToJSON => Object <$> toJSON this
  end.

Definition purpose (m : t) : Purpose :=
  match m with
  | Id | ToJSON => Local
  | GetName => Reads "name"
  | SetName v => Writes "name" (toValue v)
  | GetColor => Reads "color"
  | SetColor v => Writes "color" (toValue v)
  | GetColorIndex => Reads "color_index"
  | SetColorIndex v => Writes "color_index" (toValue v)
  | GetIsAutoColored => Reads "is_auto_colored"
  | SetIsAutoColored v => Writes "is_auto_colored" (toValue v)
  | GetMute => Reads "mute"
  | SetMute v => Writes "mute" (toValue v)
  | GetSolo => Reads "solo"
  | SetSolo v => Writes "solo" (toValue v)
  | GetDevices => Wraps "devices"
  | GetDevice index => Probes ("devices " +:+ numberToString index)
  | GetMixerDevice => Wraps "mixer_device"
  | AddNameListener l => Listens "name" l
  | RemoveNameListener l => Unlistens "name" l
  | AddColorListener l => Listens "color" l
  | RemoveColorListener l => Unlistens "color" l
  | AddColorIndexListener l => Listens "color_index" l
  | RemoveColorIndexListener l => Unlistens "color_index" l
  | AddMuteListener l => Listens "mute" l
  | RemoveMuteListener l => Unlistens "mute" l
  | AddSoloListener l => Listens "solo" l
  | RemoveSoloListener l => Unlistens "solo" l
  | AddDevicesListener l => Listens "devices" l
  | RemoveDevicesListener l => Unlistens "devices" l
  | AddIsAutoColoredListener l => Listens "is_auto_colored" l
  | RemoveIsAutoColoredListener l => Unlistens "is_auto_colored" l
  end.
End ChainMethod.
End ChainMethod.

Module DrumChainMethod.
Section DrumChainMethod.
Context `{Externals}.
Import DrumChain.

(** The methods of [DrumChain]: its own and those of [Chain] it inherits;
    [toJSON] is overridden, so a call of it on a drum chain runs the
    override. *)
Inductive t :=
| Inherited (m : ChainMethod.t)
| GetChokeGroup
| SetChokeGroup (chokeGroup : number)
| GetOutOfKey
| SetOutOfKey (outOfKey : bool)
| GetAutoSelectOnReceive
| SetAutoSelectOnReceive (autoSelect : bool)
| AddChokeGroupListener (listener : Listener)
| RemoveChokeGroupListener (listener : Listener)
| AddOutOfKeyListener (listener : Listener)
| RemoveOutOfKeyListener (listener : Listener)
| AddAutoSelectOnReceiveListener (listener : Listener)
| RemoveAutoSelectOnReceiveListener (listener : Listener).

Definition invoke (m : t) (this : DrumChain.t) : Prog Result :=
  match m with
  | Inherited ChainMethod.ToJSON => Object <$> toJSON this
  | Inherited m' => ChainMethod.invoke m' (super this)
  | GetChokeGroup => Plain <$> getChokeGroup this
  | SetChokeGroup v => Plain <$> setChokeGroup this v
  | GetOutOfKey => Plain <$> getOutOfKey this
  | SetOutOfKey v => Plain <$> setOutOfKey this v
  | GetAutoSelectOnReceive => Plain <$> getAutoSelectOnReceive this
  | SetAutoSelectOnReceive v => Plain <$> setAutoSelectOnReceive this v
  | AddChokeGroupListener l => (λ _, Void) <$> addChokeGroupListener this l
  | RemoveChokeGroupListener l => (λ _, Void) <$> removeChokeGroupListener this l
  | AddOutOfKeyListener l => (λ _, Void) <$> addOutOfKeyListener this l
  | RemoveOutOfKeyListener l => (λ _, Void) <$> removeOutOfKeyListener this l
  | AddAutoSelectOnReceiveListener l => (λ _, Void) <$> addAutoSelectOnReceiveListener this l
  | RemoveAutoSelectOnReceiveListener l => (λ _, Void) <$> removeAutoSelectOnReceiveListener this l
  end.

Definition purpose (m : t) : Purpose :=
  match m with
  | Inherited m' => ChainMethod.purpose m'
  | GetChokeGroup => Reads "choke_group"
  | SetChokeGroup v => Writes "choke_group" (toValue v)
  | GetOutOfKey => Reads "out_of_key"
  | SetOutOfKey v => Writes "out_of_key" (toValue v)
  | GetAutoSelectOnReceive => Reads "auto_select_on_receive"
  | SetAutoSelectOnReceive v => Writes "auto_select_on_receive" (toValue v)
  | AddChokeGroupListener l => Listens "choke_group" l
  | RemoveChokeGroupListener l => Unlistens "choke_group" l
  | AddOutOfKeyListener l => Listens "out_of_key" l
  | RemoveOutOfKeyListener l => Unlistens "out_of_key" l
  | AddAutoSelectOnReceiveListener l => Listens "auto_select_on_receive" l
  | RemoveAutoSelectOnReceiveListener l => Unlistens "auto_select_on_receive" l
  end.
End DrumChainMethod.
End DrumChainMethod.

(** ** Any method of any of the three classes, on an instance *)

Inductive Operation `{Externals} :=
| OnChain (this : Chain.t) (m : ChainMethod.t)
| OnDrumChain (this : DrumChain.t) (m : DrumChainMethod.t)
| OnChainMixerDevice (this : ChainMixerDevice.t)
    (m : ChainMixerDeviceMethod.t).

Definition run `{Externals} (op : Operation) : Prog Result :=
  match op with
  | OnChain this m => ChainMethod.invoke m this
  | OnDrumChain this m => DrumChainMethod.invoke m this
  | OnChainMixerDevice this m => ChainMixerDeviceMethod.invoke m this
  end.

Definition purpose `{Externals} (op : Operation) : Purpose :=
  match op with
  | OnChain _ m => ChainMethod.purpose m
  | OnDrumChain _ m => DrumChainMethod.purpose m
  | OnChainMixerDevice _ m => ChainMixerDeviceMethod.purpose m
  end.

(** The client object and the stored path of the instance operated on. *)
Definition receiver `{Externals} (op : Operation) : Ableton :=
  match op with
  | OnChain this _ => Chain.ableton this
  | OnDrumChain this _ => DrumChain.ableton this
  | OnChainMixerDevice this _ => ChainMixerDevice.ableton this
  end.

Definition stored_path `{Externals} (op : Operation) : string :=
  match op with
  | OnChain this _ => Chain.path this
  | OnDrumChain this _ => DrumChain.path this
  | OnChainMixerDevice this _ => ChainMixerDevice.path this
  end.

(** The [getProp]/[setProp] call that the operation is announced to
    make, if it is announced to make one. *)
Definition announced_call `{Externals} (op : Operation) : option CoreCall :=
  match purpose op with
  | Reads prop | Wraps prop | Probes prop =>
      Some (getProp (receiver op) (stored_path op) VUndefined prop)
  | Writes prop v =>
      Some (setProp (receiver op) (stored_path op) VUndefined prop v)
  | Listens _ _ | Unlistens _ _ | Local => None
  end.


(** The keys under which a run registered or removed listeners. *)
Definition listener_keys `{Externals} (calls : list CoreCall) : list string :=
  omap (λ c, match c with
             | addListener _ key _ | removeListener _ key _ => Some key
             | _ => None
             end) calls.

(** A client that settles every call the same way. *)
Definition always `{Externals} (o : Settled Value) : Handler unit :=
  λ _ s, (o, s).

(** ** Vocabulary for the methods taken together *)

(** The call is made on the client [on], and a [getProp]/[setProp] is
    made for the namespace [ns] with an undefined id. *)
Definition addressed_to `{Externals} (on : Ableton) (ns : string)
    (c : CoreCall) : Prop :=
  match c with
  | getProp on' ns' nsid _ | setProp on' ns' nsid _ _ =>
      on' = on ∧ ns' = ns ∧ nsid = VUndefined
  | addListener on' _ _ | removeListener on' _ _ => on' = on
  end.

(** The getter that goes with a setter, by the name of the method
    ([setName] with [getName], and so on). *)
Definition getter_of `{Externals} (op : Operation) : option Operation :=
  let chain_getter m :=
    match m with
    | ChainMethod.SetName _ => Some ChainMethod.GetName
    | ChainMethod.SetColor _ => Some ChainMethod.GetColor
    | ChainMethod.SetColorIndex _ => Some ChainMethod.GetColorIndex
    | ChainMethod.SetIsAutoColored _ => Some ChainMethod.GetIsAutoColored
    | ChainMethod.SetMute _ => Some ChainMethod.GetMute
    | ChainMethod.SetSolo _ => Some ChainMethod.GetSolo
    | _ => None
    end in
  match op with
  | OnChain this m => OnChain this <$> chain_getter m
  | OnDrumChain this m =>
      OnDrumChain this <$>
        match m with
        | DrumChainMethod.Inherited m' =>
            DrumChainMethod.Inherited <$> chain_getter m'
        | DrumChainMethod.SetChokeGroup _ =>
            Some DrumChainMethod.GetChokeGroup
        | DrumChainMethod.SetOutOfKey _ => Some DrumChainMethod.GetOutOfKey
        | DrumChainMethod.SetAutoSelectOnReceive _ =>
            Some DrumChainMethod.GetAutoSelectOnReceive
        | _ => None
        end
  | OnChainMixerDevice _ _ => None
  end.

(** The remove method that goes with an add method, by the name of the
    method ([addNameListener] with [removeNameListener], and so on), for
    the same listener. *)
Definition remover_of `{Externals} (op : Operation) : option Operation :=
  let chain_remover m :=
    match m with
    | ChainMethod.AddNameListener l => Some (ChainMethod.RemoveNameListener l)
    | ChainMethod.AddColorListener l =>
        Some (ChainMethod.RemoveColorListener l)
    | ChainMethod.AddColorIndexListener l =>
        Some (ChainMethod.RemoveColorIndexListener l)
    | ChainMethod.AddMuteListener l => Some (ChainMethod.RemoveMuteListener l)
    | ChainMethod.AddSoloListener l => Some (ChainMethod.RemoveSoloListener l)
    | ChainMethod.AddDevicesListener l =>
        Some (ChainMethod.RemoveDevicesListener l)
    | ChainMethod.AddIsAutoColoredListener l =>
        Some (ChainMethod.RemoveIsAutoColoredListener l)
    | _ => None
    end in
  match op with
  | OnChain this m => OnChain this <$> chain_remover m
  | OnDrumChain this m =>
      OnDrumChain this <$>
        match m with
        | DrumChainMethod.Inherited m' =>
            DrumChainMethod.Inherited <$> chain_remover m'
        | DrumChainMethod.AddChokeGroupListener l =>
            Some (DrumChainMethod.RemoveChokeGroupListener l)
        | DrumChainMethod.AddOutOfKeyListener l =>
            Some (DrumChainMethod.RemoveOutOfKeyListener l)
        | DrumChainMethod.AddAutoSelectOnReceiveListener l =>
            Some (DrumChainMethod.RemoveAutoSelectOnReceiveListener l)
        | _ => None
        end
  | OnChainMixerDevice this m =>
      OnChainMixerDevice this <$>
        match m with
        | ChainMixerDeviceMethod.AddCanonicalParentListener l =>
            Some (ChainMixerDeviceMethod.RemoveCanonicalParentListener l)
        | ChainMixerDeviceMethod.AddChainActivatorListener l =>
            Some (ChainMixerDeviceMethod.RemoveChainActivatorListener l)
        | ChainMixerDeviceMethod.AddPanningListener l =>
            Some (ChainMixerDeviceMethod.RemovePanningListener l)
        | ChainMixerDeviceMethod.AddSendsListener l =>
            Some (ChainMixerDeviceMethod.RemoveSendsListener l)
        | ChainMixerDeviceMethod.AddVolumeListener l =>
            Some (ChainMixerDeviceMethod.RemoveVolumeListener l)
        | _ => None
        end
  end.

(** The add-listener method that goes with a getter, by the name of the
    method ([getName] with [addNameListener], and so on; [getMixerDevice]
    has none). *)
Definition listener_of `{Externals} (l : Listener) (op : Operation)
  : option Operation :=
  let chain_listener m :=
    match m with
    | ChainMethod.GetName => Some (ChainMethod.AddNameListener l)
    | ChainMethod.GetColor => Some (ChainMethod.AddColorListener l)
    | ChainMethod.GetColorIndex => Some (ChainMethod.AddColorIndexListener l)
    | ChainMethod.GetIsAutoColored =>
        Some (ChainMethod.AddIsAutoColoredListener l)
    | ChainMethod.GetMute => Some (ChainMethod.AddMuteListener l)
    | ChainMethod.GetSolo => Some (ChainMethod.AddSoloListener l)
    | ChainMethod.GetDevices => Some (ChainMethod.AddDevicesListener l)
    | _ => None
    end in
  match op with
  | OnChain this m => OnChain this <$> chain_listener m
  | OnDrumChain this m =>
      OnDrumChain this <$>
        match m with
        | DrumChainMethod.Inherited m' =>
            DrumChainMethod.Inherited <$> chain_listener m'
        | DrumChainMethod.GetChokeGroup =>
            Some (DrumChainMethod.AddChokeGroupListener l)
        | DrumChainMethod.GetOutOfKey =>
            Some (DrumChainMethod.AddOutOfKeyListener l)
        | DrumChainMethod.GetAutoSelectOnReceive =>
            Some (DrumChainMethod.AddAutoSelectOnReceiveListener l)
        | _ => None
        end
  | OnChainMixerDevice this m =>
      OnChainMixerDevice this <$>
        match m with
        | ChainMixerDeviceMethod.GetCanonicalParent =>
            Some (ChainMixerDeviceMethod.AddCanonicalParentListener l)
        | ChainMixerDeviceMethod.GetChainActivator =>
            Some (ChainMixerDeviceMethod.AddChainActivatorListener l)
        | ChainMixerDeviceMethod.GetPanning =>
            Some (ChainMixerDeviceMethod.AddPanningListener l)
        | ChainMixerDeviceMethod.GetSends =>
            Some (ChainMixerDeviceMethod.AddSendsListener l)
        | ChainMixerDeviceMethod.GetVolume =>
            Some (ChainMixerDeviceMethod.AddVolumeListener l)
        | _ => None
        end
  end.

(** The removal that undoes a registration: same client, key and
    listener. *)
Definition as_removal `{Externals} (c : CoreCall) : CoreCall :=
  match c with
  | addListener on key l => removeListener on key l
  | c => c
  end.

(** A client that echoes state: it stores what is set under the namespace
    and the property name, and answers a get with what is stored there. *)
Definition echo_client `{Externals} : Handler (gmap (string * string) Value) :=
  λ c store,
    match c with
    | getProp _ ns _ prop =>
        (match store !! (ns, prop) with
         | Some v => Resolved v
         | None => Rejected (ProtocolError "no such property")
         end, store)
    | setProp _ ns _ prop v => (Resolved VUndefined, <[(ns, prop) := v]> store)
    | addListener _ _ _ | removeListener _ _ _ => (Resolved VUndefined, store)
    end.

(** * The client core behind [Ableton]: request correlator, listener
      registry and router *)

Module Core.

(** Modelled from the spec: the module "../index" that defines the client
    is not among the sources.  An address is an ordered sequence of
    segments, each a name token optionally followed by an integer index
    (section 3); two addresses are equal iff their segment sequences
    are. *)
Record Segment := { name : string; index : option Z }.

#[global] Instance Segment_eq_dec : EqDecision Segment.
Proof. solve_decision. Defined.

#[global] Instance Segment_countable : Countable Segment :=
  inj_countable' (λ s, (name s, index s))
                 (λ p, {| name := p.1; index := p.2 |})
                 (λ s, match s with Build_Segment _ _ => eq_refl end).

Abbreviation Address := (list Segment).

(** Modelled from the spec: the operation tags of a wire frame (section 6);
    a caller submits only the first three. *)
Inductive Operation :=
| OpGet
| OpSet
| OpCall (methodName : string)
| EnableNotify
| DisableNotify.

#[global] Instance Operation_eq_dec : EqDecision Operation.
Proof. solve_decision. Defined.

(** Modelled from the spec: a request as the correlator owns it. *)
Record Request := {
  correlation_id : nat;
  address : Address;
  operation : Operation;
  arguments : list Value;
  created_at : nat;
}.

(** Modelled from the spec: a pending entry, the request together with the
    caller's PendingReply (named by its ticket) and the time at which its
    timer is due. *)
Record Entry := { request : Request; ticket : nat; deadline : nat }.

(** Modelled from the spec: what the wire codec decodes an inbound frame
    into; a frame that does not decode is [Garbled]. *)
Inductive Inbound :=
| Reply (correlation_id : nat) (result : Value + string)
| Event (address : Address) (payload : Value).

(** Modelled from the spec: a datagram as the transport delivers it. *)
Inductive Datagram :=
| Garbled
| Carrying (m : Inbound).

(** Modelled from the spec: the decoding half of the wire codec; a
    malformed frame is reported as [DecodeError]. *)
Definition decode (d : Datagram) : Error + Inbound :=
  match d with
  | Garbled => inl DecodeError
  | Carrying m => inr m
  end.

(** Modelled from the spec: a reply carries a value, or the host's error
    detail, which fails the request with [ProtocolError] verbatim. *)
Definition outcome (result : Value + string) : Settled Value :=
  match result with
  | inl v => Resolved v
  | inr detail => Rejected (ProtocolError detail)
  end.

(** Modelled from the spec: a callback is known to the registry by its
    handle, and so are correlation ids and PendingReplys by a number. *)
Abbreviation Callback := nat.

(** Modelled from the spec: the state of the core.  [pending] is the
    correlator's map; [replies] holds every PendingReply that has completed
    and [completions] every completion the correlator performed, in
    order; [outbox] is what was handed to the transport, oldest first (the
    transport takes every frame; a frame it loses is a request that gets no
    reply); [subscriptions] is the registry, callbacks in insertion order;
    [delivered] lists the callback invocations made and [decode_errors]
    counts the frames dropped. *)
Record State := {
  pending : gmap nat Entry;
  replies : gmap nat (Settled Value);
  completions : list (nat * Settled Value);
  next_ticket : nat;
  outbox : list Request;
  subscriptions : gmap Address (list Callback);
  delivered : list (Callback * Value);
  decode_errors : nat;
}.

(** Modelled from the spec: the core before anything was submitted or
    registered. *)
Definition init : State :=
  {| pending := ∅; replies := ∅; completions := []; next_ticket := 0;
     outbox := []; subscriptions := ∅; delivered := [];
     decode_errors := 0 |}.

(** Modelled from the spec: completion of a PendingReply is idempotent, a
    second attempt changes nothing. *)
Definition complete (t : nat) (r : Settled Value)
    (rs : gmap nat (Settled Value)) : gmap nat (Settled Value) :=
  match rs !! t with
  | Some _ => rs
  | None => <[t := r]> rs
  end.

(** Modelled from the spec: [submit] allocates a fresh correlation id,
    records the pending entry, hands the frame to the transport and starts
    the timer; it returns the caller's PendingReply. *)
Definition submit (now : nat) (address : Address) (operation : Operation)
    (arguments : list Value) (timeout : nat) (s : State) : nat * State :=
  let cid := fresh (dom (pending s)) in
  let req := {| correlation_id := cid; address := address;
                operation := operation; arguments := arguments;
                created_at := now |} in
  let e := {| request := req; ticket := next_ticket s;
              deadline := now + timeout |} in
  (next_ticket s,
   {| pending := <[cid := e]> (pending s);
      replies := replies s;
      completions := completions s;
      next_ticket := S (next_ticket s);
      outbox := outbox s ++ [req];
      subscriptions := subscriptions s;
      delivered := delivered s;
      decode_errors := decode_errors s |}).

(** Modelled from the spec: the pending entry under [cid] is removed and
    the caller's PendingReply completed with [r]. *)
Definition settle (cid : nat) (e : Entry) (r : Settled Value) (s : State)
  : State :=
  {| pending := delete cid (pending s);
     replies := complete (ticket e) r (replies s);
     completions := completions s ++ [(ticket e, r)];
     next_ticket := next_ticket s;
     outbox := outbox s;
     subscriptions := subscriptions s;
     delivered := delivered s;
     decode_errors := decode_errors s |}.

(** Modelled from the spec: [resolve]/[fail] on a matching reply; a reply
    with no pending entry is discarded. *)
Definition on_reply (cid : nat) (result : Value + string) (s : State)
  : State :=
  match pending s !! cid with
  | Some e => settle cid e (outcome result) s
  | None => s
  end.

(** Modelled from the spec: the timer of the request submitted under
    [cid] with PendingReply [t] fires; it fails that request with
    [Timeout] if it is still pending and does nothing otherwise. *)
Definition on_timeout (cid t : nat) (s : State) : State :=
  match pending s !! cid with
  | Some e => if decide (ticket e = t) then settle cid e (Rejected Timeout) s
              else s
  | None => s
  end.

(** Modelled from the spec: the registry is replaced, the correlator is
    left alone. *)
Definition with_subscriptions (subs : gmap Address (list Callback))
    (s : State) : State :=
  {| pending := pending s; replies := replies s;
     completions := completions s; next_ticket := next_ticket s;
     outbox := outbox s; subscriptions := subs;
     delivered := delivered s; decode_errors := decode_errors s |}.

(** Modelled from the spec: the callbacks registered for an address, and
    their number. *)
Definition subscribers (a : Address) (s : State) : list Callback :=
  default [] (subscriptions s !! a).

Definition subscription_count (a : Address) (s : State) : nat :=
  length (subscribers a s).

(** Modelled from the spec: [addListener] registers the callback under the
    address (the registry holds a set of callback handles per address, so
    a callback already registered there is not registered twice) and, when
    this is the first subscription for the address, issues the "enable
    notifications" request through the correlator. *)
Definition add_listener (now timeout : nat) (a : Address) (cb : Callback)
    (s : State) : State :=
  let subs := subscribers a s in
  if decide (cb ∈ subs) then s
  else
    let s1 := with_subscriptions (<[a := subs ++ [cb]]> (subscriptions s)) s in
    match subs with
    | [] => (submit now a EnableNotify [] timeout s1).2
    | _ :: _ => s1
    end.

(** Modelled from the spec: [removeListener] deregisters the callback and,
    if it was the last subscription for the address, issues the "disable
    notifications" request. *)
Definition remove_listener (now timeout : nat) (a : Address) (cb : Callback)
    (s : State) : State :=
  let subs := subscribers a s in
  if decide (cb ∈ subs) then
    let rest := filter (λ x, x ≠ cb) subs in
    let s1 := with_subscriptions (<[a := rest]> (subscriptions s)) s in
    match rest with
    | [] => (submit now a DisableNotify [] timeout s1).2
    | _ :: _ => s1
    end
  else s.

(** Modelled from the spec: [dispatch] hands the event to every callback
    registered for its address, in insertion order, from a snapshot taken
    before any callback runs. *)
Definition dispatch (a : Address) (payload : Value) (s : State) : State :=
  {| pending := pending s; replies := replies s;
     completions := completions s; next_ticket := next_ticket s;
     outbox := outbox s; subscriptions := subscriptions s;
     delivered := delivered s ++ ((λ cb, (cb, payload)) <$> subscribers a s);
     decode_errors := decode_errors s |}.

(** Modelled from the spec: a frame that does not decode is counted and
    dropped. *)
Definition drop_garbled (s : State) : State :=
  {| pending := pending s; replies := replies s;
     completions := completions s; next_ticket := next_ticket s;
     outbox := outbox s; subscriptions := subscriptions s;
     delivered := delivered s; decode_errors := S (decode_errors s) |}.

(** Modelled from the spec: the router sends a decoded reply to the
    correlator and a decoded event to the registry. *)
Definition on_receive (d : Datagram) (s : State) : State :=
  match decode d with
  | inl _ => drop_garbled s
  | inr (Reply cid result) => on_reply cid result s
  | inr (Event a payload) => dispatch a payload s
  end.

(** Modelled from the spec: everything that can happen to the core, one
    at a time: a call of its public API (section 4.5; [now] is the time of
    the call and [timeout] the configured window), a datagram from the
    transport, or a timer firing. *)
Inductive Input :=
| GetProp (now timeout : nat) (a : Address)
| SetProp (now timeout : nat) (a : Address) (v : Value)
| CallMethod (now timeout : nat) (a : Address) (methodName : string)
    (args : list Value)
| AddListener (now timeout : nat) (a : Address) (cb : Callback)
| RemoveListener (now timeout : nat) (a : Address) (cb : Callback)
| Receive (d : Datagram)
| TimerFired (cid t : nat).

(** Modelled from the spec: [getProp], [setProp] and [call] are one
    submission each (section 4.5). *)
Definition get_prop (now timeout : nat) (a : Address) (s : State)
  : nat * State :=
  submit now a OpGet [] timeout s.

Definition set_prop (now timeout : nat) (a : Address) (v : Value) (s : State)
  : nat * State :=
  submit now a OpSet [v] timeout s.

Definition call_method (now timeout : nat) (a : Address)
    (methodName : string) (args : list Value) (s : State) : nat * State :=
  submit now a (OpCall methodName) args timeout s.

(** Modelled from the spec: the core processes one input. *)
Definition step (i : Input) (s : State) : State :=
  match i with
  | GetProp now timeout a => (get_prop now timeout a s).2
  | SetProp now timeout a v => (set_prop now timeout a v s).2
  | CallMethod now timeout a m args => (call_method now timeout a m args s).2
  | AddListener now timeout a cb => add_listener now timeout a cb s
  | RemoveListener now timeout a cb => remove_listener now timeout a cb s
  | Receive d => on_receive d s
  | TimerFired cid t => on_timeout cid t s
  end.

(** Modelled from the spec: the inputs are processed one after the other
    (one logical reader, callers excluded from each other on the two
    maps, section 5). *)
Definition steps (inputs : list Input) (s : State) : State :=
  foldl (λ s i, step i s) s inputs.

(** ** Vocabulary of the properties *)

(** What an input carries for the request pending under [cid] with
    PendingReply [t]: the result of a reply bearing [cid], or [Timeout]
    when it is that request's timer. *)
Definition answer_to (cid t : nat) (i : Input) : option (Settled Value) :=
  match i with
  | Receive (Carrying (Reply cid' result)) =>
      if decide (cid' = cid) then Some (outcome result) else None
  | TimerFired cid' t' =>
      if decide (cid' = cid ∧ t' = t) then Some (Rejected Timeout) else None
  | _ => None
  end.

(** The first answer for the request among the inputs, if there is one. *)
Fixpoint first_answer (cid t : nat) (inputs : list Input)
  : option (Settled Value) :=
  match inputs with
  | [] => None
  | i :: rest =>
      match answer_to cid t i with
      | Some r => Some r
      | None => first_answer cid t rest
      end
  end.

(** The inputs that submit a request for a caller. *)
Definition is_submission (i : Input) : Prop :=
  match i with
  | GetProp _ _ _ | SetProp _ _ _ _ | CallMethod _ _ _ _ _ => True
  | _ => False
  end.

(** How many times the correlator completed the PendingReply [t]. *)
Definition times_completed (t : nat) (s : State) : nat :=
  length (filter (λ c, c.1 = t) (completions s)).

(** The requests handed to the transport while [s] became [s']. *)
Definition sent_between (s s' : State) : list Request :=
  drop (length (outbox s)) (outbox s').

(** The enable/disable requests for address [a] among [reqs]. *)
Definition notifications (a : Address) (reqs : list Request)
  : list Operation :=
  operation <$>
    filter (λ r, address r = a ∧
                 (operation r = EnableNotify ∨ operation r = DisableNotify))
           reqs.

(** What a change of the subscription count from [n] to [m] calls for. *)
Definition toggle (n m : nat) : list Operation :=
  match n, m with
  | 0, 1 => [EnableNotify]
  | 1, 0 => [DisableNotify]
  | _, _ => []
  end.

(** The toggles called for by the successive counts of [a] along the
    inputs. *)
Fixpoint expected_toggles (a : Address) (inputs : list Input) (s : State)
  : list Operation :=
  match inputs with
  | [] => []
  | i :: rest =>
      toggle (subscription_count a s) (subscription_count a (step i s))
        ++ expected_toggles a rest (step i s)
  end.

(** The callbacks listening on [a] after one more input, told from the
    add and remove calls alone: an add for [a] brings in a callback that
    is not there yet, a remove for [a] takes the callback out, and nothing
    else counts. *)
Definition listeners_step (a : Address) (subs : list Callback) (i : Input)
  : list Callback :=
  match i with
  | AddListener _ _ a' cb =>
      if decide (a' = a ∧ cb ∉ subs) then subs ++ [cb] else subs
  | RemoveListener _ _ a' cb =>
      if decide (a' = a) then filter (λ x, x ≠ cb) subs else subs
  | _ => subs
  end.

(** The callbacks listening on [a] after the inputs, starting from
    none. *)
Definition listeners_after (a : Address) (inputs : list Input)
  : list Callback :=
  foldl (listeners_step a) [] inputs.

(** The toggles the inputs call for when [subs] are listening on [a],
    again from the add and remove calls alone. *)
Fixpoint toggles_from (a : Address) (subs : list Callback)
    (inputs : list Input) : list Operation :=
  match inputs with
  | [] => []
  | i :: rest =>
      toggle (length subs) (length (listeners_step a subs i))
        ++ toggles_from a (listeners_step a subs i) rest
  end.

(** Modelled from the spec: the mock host of the testable properties, which
    echoes state: it stores what is set and answers a get with what is
    stored. *)
Definition host_answer (req : Request) (store : gmap Address Value)
  : gmap Address Value * Datagram :=
  match operation req, arguments req with
  | OpSet, v :: _ =>
      (<[address req := v]> store,
       Carrying (Reply (correlation_id req) (inl VUndefined)))
  | OpGet, _ =>
      (store,
       Carrying (Reply (correlation_id req)
                   (match store !! address req with
                    | Some v => inl v
                    | None => inr "no such property"
                    end)))
  | _, _ => (store, Carrying (Reply (correlation_id req) (inl VUndefined)))
  end.

(** The host answers the request sent last and the core receives the
    answer. *)
Definition exchange (s : State) (store : gmap Address Value)
  : State * gmap Address Value :=
  match last (outbox s) with
  | Some req =>
      let '(store', d) := host_answer req store in (on_receive d s, store')
  | None => (s, store)
  end.

(** [await setProp(a, v)] and then [await getProp(a)]: how the two
    PendingReplys ended. *)
Definition set_then_get (now1 timeout1 now2 timeout2 : nat) (a : Address)
    (v : Value) (s : State) (store : gmap Address Value)
  : option (Settled Value) * option (Settled Value) :=
  let '(t1, s1) := set_prop now1 timeout1 a v s in
  let '(s2, store2) := exchange s1 store in
  let '(t2, s3) := get_prop now2 timeout2 a s2 in
  let '(s4, _) := exchange s3 store2 in
  (replies s2 !! t1, replies s4 !! t2).

(** The steps that leave the correlator alone. *)
Definition same_correlator (s s' : State) : Prop :=
  pending s' = pending s ∧ replies s' = replies s ∧
  completions s' = completions s ∧ next_ticket s' = next_ticket s ∧
  outbox s' = outbox s.

(** What one input does to the correlator: nothing, one submission, or
    the settling of one pending entry. *)
Inductive effect (s : State) : State → Prop :=
| effect_none s' :
    same_correlator s s' → effect s s'
| effect_submit s1 now a op args timeout :
    same_correlator s s1 → effect s (submit now a op args timeout s1).2
| effect_settle cid e r :
    pending s !! cid = Some e → effect s (settle cid e r s).

(** Invariant of the core: the tickets of pending entries are issued,
    pairwise distinct and not completed; no ticket that is still to be
    issued is completed; no callback is registered twice for an
    address. *)
Record wf (s : State) : Prop := {
  wf_issued : ∀ cid e, pending s !! cid = Some e → ticket e < next_ticket s;
  wf_distinct : ∀ c1 c2 e1 e2,
    pending s !! c1 = Some e1 → pending s !! c2 = Some e2 →
    ticket e1 = ticket e2 → c1 = c2;
  wf_waiting : ∀ cid e, pending s !! cid = Some e →
    replies s !! ticket e = None ∧ times_completed (ticket e) s = 0;
  wf_unissued : ∀ t, next_ticket s ≤ t →
    replies s !! t = None ∧ times_completed t s = 0;
  wf_registry : ∀ a, NoDup (subscribers a s);
}.

End Core.

(** ** Concrete choices of the imported classes, for examples *)

(** Wrappers that keep the client and the data, whatever the data;
    integer indices, spelled as a template literal spells an integer of
    magnitude below 10^21, by its decimal numeral. *)
Definition wrappers_as_pairs : Externals :=
  {| Ableton := nat; Listener := nat;
     Device := nat * Value; DeviceParameter := nat * Value;
     newDevice := λ a v, Resolved (a, v);
     newDeviceParameter := λ a v, Resolved (a, v);
     JsNumber := Z; numberToString := pretty;
     asRawChainMixerDevice := λ _,
       {| RawChainMixerDevice.id := 0%Z;
          RawChainMixerDevice.canonical_parent := {| IdRef.id := 0%Z |};
          RawChainMixerDevice.chain_activator :=
            {| ParamRef.id := 0%Z; ParamRef.value := 0%Z |};
          RawChainMixerDevice.panning :=
            {| ParamRef.id := 0%Z; ParamRef.value := 0%Z |};
          RawChainMixerDevice.sends := [];
          RawChainMixerDevice.volume :=
            {| ParamRef.id := 0%Z; ParamRef.value := 0%Z |} |} |}.

(** A constructor that reads a field of the data it is given, as
    [raw.id]: on [undefined] and [null] that read throws a TypeError. *)
Definition reads_a_field (client : nat) (data : Value)
  : Settled (nat * Value) :=
  match data with
  | VUndefined | VNull => Rejected (JsError "TypeError")
  | _ => Resolved (client, data)
  end.

(** The same wrappers with such constructors. *)
Definition strict_wrappers : Externals :=
  {| Ableton := nat; Listener := nat;
     Device := nat * Value; DeviceParameter := nat * Value;
     newDevice := reads_a_field;
     newDeviceParameter := reads_a_field;
     JsNumber := Z; numberToString := pretty;
     asRawChainMixerDevice := @asRawChainMixerDevice wrappers_as_pairs |}.

Definition sample_raw_chain : RawChain.t :=
  {| RawChain.id := 7%Z; RawChain.name := "Kick"; RawChain.color := 16725558%Z;
     RawChain.color_index := 14%Z; RawChain.is_auto_colored := false;
     RawChain.mute := false; RawChain.solo := false;
     RawChain.devices :=
       [{| DeviceRef.id := 9%Z; DeviceRef.type := "instrument" |}];
     RawChain.mixer_device := {| IdRef.id := 8%Z |} |}.

Definition sample_chain (path : string) : @Chain.t wrappers_as_pairs :=
  @Chain.Build_t wrappers_as_pairs 0 sample_raw_chain path.

Definition sample_mixer (path : string)
  : @ChainMixerDevice.t wrappers_as_pairs :=
  @ChainMixerDevice.Build_t wrappers_as_pairs 0
    (@asRawChainMixerDevice wrappers_as_pairs VUndefined) path.

Definition strict_mixer (path : string)
  : @ChainMixerDevice.t strict_wrappers :=
  @ChainMixerDevice.Build_t strict_wrappers 0
    (@asRawChainMixerDevice strict_wrappers VUndefined) path.

Definition sample_drum_chain (path : string)
  : @DrumChain.t wrappers_as_pairs :=
  @DrumChain.Build_t wrappers_as_pairs 0
    {| RawDrumChain.base := sample_raw_chain;
       RawDrumChain.choke_group := 1%Z;
       RawDrumChain.out_of_key := false;
       RawDrumChain.auto_select_on_receive := true |}
    path.

(** Two requests pending together, and a transport that answers the second
    first, repeats that answer with another value, and delivers noise. *)
Definition sample_volume : Core.Address :=
  [ {| Core.name := "track"; Core.index := Some 0%Z |};
    {| Core.name := "volume"; Core.index := None |} ].

Definition sample_name : Core.Address :=
  [ {| Core.name := "track"; Core.index := Some 1%Z |};
    {| Core.name := "name"; Core.index := None |} ].

Definition two_requests : list Core.Input :=
  [ Core.GetProp 10 2000 sample_volume;
    Core.SetProp 11 2000 sample_name (VStr "Bass") ].

Definition first_request : Core.Entry :=
  {| Core.request :=
       {| Core.correlation_id := 0; Core.address := sample_volume;
          Core.operation := Core.OpGet; Core.arguments := [];
          Core.created_at := 10 |};
     Core.ticket := 0; Core.deadline := 2010 |}.

Definition unruly_transport : list Core.Input :=
  [ Core.Receive (Core.Carrying (Core.Reply 1 (inl VUndefined)));
    Core.Receive (Core.Carrying (Core.Reply 0 (inr "no such property")));
    Core.Receive (Core.Carrying (Core.Reply 1 (inl (VNum 5%Z))));
    Core.TimerFired 0 0;
    Core.Receive Core.Garbled;
    Core.Receive (Core.Carrying (Core.Reply 7 (inl VNull))) ].

(** Two listeners come and go on one address while another address is
    listened to. *)
Definition listener_traffic : list Core.Input :=
  [ Core.AddListener 1 2000 sample_volume 1;
    Core.AddListener 2 2000 sample_volume 2;
    Core.AddListener 3 2000 sample_name 1;
    Core.RemoveListener 4 2000 sample_volume 1;
    Core.AddListener 5 2000 sample_volume 2;
    Core.RemoveListener 6 2000 sample_volume 3;
    Core.RemoveListener 7 2000 sample_volume 2;
    Core.AddListener 8 2000 sample_volume 3 ].

(** * Properties of the facades *)

Section FacadeFacts.
Context `{Externals}.

Lemma exec_bind {S A B} (h : Handler S) (p : Prog A) (f : A → Prog B) s :
  exec h (bind p f) s =
    match exec h p s with
    | (calls, s1, Resolved a) =>
        let '(calls', s2, r) := exec h (f a) s1 in (calls ++ calls', s2, r)
    | (calls, s1, Rejected e) => (calls, s1, Rejected e)
    end.
Proof.
  revert s. induction p as [a|e|c k IH]; intros s; simpl.
  - by destruct (exec h (f a) s) as [[??]?].
  - done.
  - destruct (h c s) as [o s1]. rewrite IH.
    destruct (exec h (k o) s1) as [[calls s2] [a|e]]; [|done].
    by destruct (exec h (f a) s2) as [[??]?].
Qed.

Lemma exec_await {S} (h : Handler S) (c : CoreCall) s :
  exec h (await c) s = ([c], (h c s).2, (h c s).1).
Proof. simpl. by destruct (h c s) as [[v|e] s1]. Qed.

Lemma exec_try_catch {S A} (h : Handler S) (p : Prog A) handler s :
  exec h (try_catch p handler) s =
    match exec h p s with
    | (calls, s1, Resolved a) => (calls, s1, Resolved a)
    | (calls, s1, Rejected e) =>
        let '(calls', s2, r) := exec h (handler e) s1 in
        (calls ++ calls', s2, r)
    end.
Proof.
  revert s. induction p as [a|e|c k IH]; intros s; simpl.
  - done.
  - by destruct (exec h (handler e) s) as [[??]?].
  - destruct (h c s) as [o s1]. rewrite IH.
    destruct (exec h (k o) s1) as [[calls s2] [a|e]]; [done|].
    by destruct (exec h (handler e) s2) as [[??]?].
Qed.

(** Runs a method body that makes one call: by cases on how the client
    settles it. *)
Ltac run_body h s :=
  repeat match goal with c := _ : CoreCall |- _ => subst c end;
  simpl;
  match goal with
  | |- context [h ?c s] => destruct (h c s) as [[?|?] ?]
  end;
  simpl.

(** Splits an operation into the class and the method it is. *)
Ltac each_method op :=
  destruct op as [this m|this m|this m];
  [ destruct m
  | destruct m as [m| | | | | | | | | | | |]; [destruct m|..]
  | destruct m ].

(** Keeps the methods whose announced purpose is the one assumed. *)
Ltac by_purpose op :=
  each_method op;
  match goal with
  | Hp : purpose _ = _ |- _ => cbn in Hp; try discriminate Hp; simplify_eq
  | Hc : announced_call _ = _ |- _ =>
      cbn in Hc; try discriminate Hc; simplify_eq
  end.

(** C6: every scalar getter and setter of Chain, DrumChain and
    ChainMixerDevice is exactly one call of [getProp] (a getter) or
    [setProp] (a setter) on the stored client with the stored path; the
    getter ends as [getProp] ended, value or rejection unchanged, and the
    setter passes its argument on to [setProp] unchanged. *)
Theorem accessor_is_one_forwarded_call (op : Operation) S (h : Handler S) s :
  (∀ prop, purpose op = Reads prop →
     let c := getProp (receiver op) (stored_path op) VUndefined prop in
     exec h (run op) s = ([c], (h c s).2, Plain <$> (h c s).1)) ∧
  (∀ prop v, purpose op = Writes prop v →
     let c := setProp (receiver op) (stored_path op) VUndefined prop v in
     exec h (run op) s = ([c], (h c s).2, Plain <$> (h c s).1)).
Proof.
  split; intros; by_purpose op; by run_body h s.
Qed.

(** C4, as amended: every listener method of the three classes makes
    exactly one call, [addListener] or [removeListener] on the stored
    client, whose key is the bare name of the observed property and whose
    listener is the one it was given; the stored path is no part of the
    key. *)
Theorem listener_key_is_property_name (op : Operation) S (h : Handler S) s :
  (∀ prop l, purpose op = Listens prop l →
     let c := addListener (receiver op) prop l in
     exec h (run op) s = ([c], (h c s).2, (λ _, Void) <$> (h c s).1) ∧
     listener_keys (exec h (run op) s).1.1 = [prop]) ∧
  (∀ prop l, purpose op = Unlistens prop l →
     let c := removeListener (receiver op) prop l in
     exec h (run op) s = ([c], (h c s).2, (λ _, Void) <$> (h c s).1) ∧
     listener_keys (exec h (run op) s).1.1 = [prop]).
Proof.
  split; intros; by_purpose op; by run_body h s.
Qed.


(** C8, as amended: [ChainMixerDevice.getSend] and [Chain.getDevice] never
    reject.  Each makes the one [getProp] call for [sends i] (resp.
    [devices i], the index spelled as the template literal spells it)
    under the stored path; if that call fails, with whatever error, the
    method resolves to null; if it succeeds, the method resolves to the
    DeviceParameter (resp. Device) constructed from the stored client and
    the data when the constructor returns one, and to null when the
    constructor throws, for that exception is caught as well. *)
Theorem probe_never_rejects (index : JsNumber) S (h : Handler S) s :
  (∀ this : ChainMixerDevice.t,
     let c := getProp (ChainMixerDevice.ableton this)
                (ChainMixerDevice.path this) VUndefined
                ("sends " +:+ numberToString index) in
     exec h (ChainMixerDevice.getSend this index) s =
       ([c], (h c s).2,
        Resolved match (h c s).1 with
                 | Resolved sendData =>
                     match newDeviceParameter
                             (ChainMixerDevice.ableton this) sendData with
                     | Resolved deviceParameter => Some deviceParameter
                     | Rejected _ => None
                     end
                 | Rejected _ => None
                 end)) ∧
  (∀ this : Chain.t,
     let c := getProp (Chain.ableton this) (Chain.path this) VUndefined
                ("devices " +:+ numberToString index) in
     exec h (Chain.getDevice this index) s =
       ([c], (h c s).2,
        Resolved match (h c s).1 with
                 | Resolved deviceData =>
                     match newDevice (Chain.ableton this) deviceData with
                     | Resolved device => Some device
                     | Rejected _ => None
                     end
                 | Rejected _ => None
                 end)).
Proof.
  split; intros this c; subst c;
    unfold ChainMixerDevice.getSend, Chain.getDevice;
    rewrite exec_try_catch; unfold mbind, Prog_bind;
    rewrite exec_bind, exec_await;
    destruct (h _ s) as [[d|?] ?]; [|done| |done]; cbn [fst snd].
  - by destruct (newDeviceParameter _ d).
  - by destruct (newDevice _ d).
Qed.

Lemma js_object_lookup spread props k :
  js_object spread props !! k =
    match last_defined k props with
    | Some w => Some w
    | None => spread !! k
    end.
Proof.
  unfold js_object. revert spread.
  induction props as [|[k' v] props IH]; intros spread; [done|].
  simpl. rewrite IH. destruct (last_defined k props); [done|].
  destruct (decide (k' = k)) as [->|?].
  - by rewrite lookup_insert_eq.
  - by rewrite lookup_insert_ne.
Qed.



(** C10: constructing a Chain, a DrumChain or a ChainMixerDevice calls
    nothing on the client; the instance holds the client reference, the
    raw snapshot and the path it was given, the empty string when the path
    is omitted, and its [id] getter then returns the snapshot's id, again
    without a call. *)
Theorem construction_is_local (client : Ableton) (path : option string)
    S (h : Handler S) s :
  (∀ raw, ∃ this,
     exec h (Chain.constructor client raw path) s = ([], s, Resolved this) ∧
     Chain.ableton this = client ∧ Chain.raw this = raw ∧
     Chain.path this = default "" path ∧
     exec h (Chain.id this) s = ([], s, Resolved (RawChain.id raw))) ∧
  (∀ raw, ∃ this,
     exec h (DrumChain.constructor client raw path) s
       = ([], s, Resolved this) ∧
     DrumChain.ableton this = client ∧ DrumChain.raw this = raw ∧
     DrumChain.path this = default "" path ∧
     exec h (Chain.id (DrumChain.super this)) s =
       ([], s, Resolved (RawChain.id (RawDrumChain.base raw)))) ∧
  (∀ raw, ∃ this,
     exec h (ChainMixerDevice.constructor client raw path) s
       = ([], s, Resolved this) ∧
     ChainMixerDevice.ableton this = client ∧
     ChainMixerDevice.raw this = raw ∧
     ChainMixerDevice.path this = default "" path ∧
     exec h (ChainMixerDevice.id this) s =
       ([], s, Resolved (RawChainMixerDevice.id raw))).
Proof.
  split_and!; intros raw; eexists; (split; [reflexivity|]); by split_and!.
Qed.

End FacadeFacts.

(** ** The facade properties at concrete instances *)

Section FacadeInstances.
#[local] Existing Instance wrappers_as_pairs.

Lemma accessor_is_one_forwarded_call_witness :
  exec (always (Resolved (VStr "Kick")))
       (run (OnChain (sample_chain "live_set tracks 0 devices 0 chains 1")
               ChainMethod.GetName)) tt
  = ([getProp 0 "live_set tracks 0 devices 0 chains 1" VUndefined "name"],
     tt, Resolved (Plain (VStr "Kick"))).
Proof.
  apply (proj1 (accessor_is_one_forwarded_call
                  (OnChain (sample_chain _) ChainMethod.GetName)
                  unit (always (Resolved (VStr "Kick"))) tt) "name").
  reflexivity.
Defined.

(** C4, as stated, fails: two chains stored under different paths
    register their name listeners under one and the same key, "name", which
    does not lie under either path. *)
Lemma listener_key_ignores_path :
  let c1 := sample_chain "live_set tracks 0 devices 0 chains 0" in
  let c2 := sample_chain "live_set tracks 0 devices 0 chains 1" in
  let keys this :=
    listener_keys
      (exec (always (Resolved VUndefined)) (Chain.addNameListener this 5) tt)
        .1.1 in
  Chain.path c1 ≠ Chain.path c2 ∧ keys c1 = keys c2 ∧ keys c1 = ["name"].
Proof. by split_and!. Qed.

Lemma listener_key_is_property_name_witness :
  let op := OnChain (sample_chain "live_set tracks 0 devices 0 chains 1")
              (ChainMethod.AddNameListener 5) in
  exec (always (Resolved VUndefined)) (run op) tt
    = ([addListener 0 "name" 5], tt, Resolved Void) ∧
  listener_keys (exec (always (Resolved VUndefined)) (run op) tt).1.1
    = ["name"].
Proof.
  intros op.
  apply (proj1 (listener_key_is_property_name op unit
                  (always (Resolved VUndefined)) tt) "name" 5).
  reflexivity.
Defined.



(** C8, as stated, fails: [getProp] resolves, to [undefined], and [getSend]
    nevertheless resolves to null and not to a DeviceParameter, because
    the constructor throws inside the [try]. *)
Lemma getSend_null_after_success :
  let h := @always strict_wrappers (Resolved VUndefined) in
  let c := @getProp strict_wrappers 0 "live_set tracks 0 mixer_device"
             VUndefined "sends 0" in
  (h c tt).1 = Resolved VUndefined ∧
  exec h (ChainMixerDevice.getSend
            (strict_mixer "live_set tracks 0 mixer_device") 0%Z) tt
    = ([c], tt, Resolved None).
Proof. by split. Qed.


End FacadeInstances.

(** * Properties of the core *)

Section CoreFacts.
Import Core.

Implicit Types (s : State) (i : Input) (e : Entry) (a : Address).

Lemma same_correlator_refl s : same_correlator s s.
Proof. by repeat split. Qed.

Lemma times_completed_settle t cid e r s :
  times_completed t (settle cid e r s) =
    times_completed t s + (if decide (ticket e = t) then 1 else 0).
Proof.
  unfold times_completed; simpl. rewrite filter_app, length_app. f_equal.
  rewrite filter_cons, filter_nil. simpl. by case_decide.
Qed.

Lemma step_effect i s : effect s (step i s).
Proof.
  destruct i as [now timeout a|now timeout a v|now timeout a m args
                |now timeout a cb|now timeout a cb|d|cid t]; simpl.
  - apply effect_submit, same_correlator_refl.
  - apply effect_submit, same_correlator_refl.
  - apply effect_submit, same_correlator_refl.
  - unfold add_listener. case_decide.
    { apply effect_none, same_correlator_refl. }
    destruct (subscribers a s).
    + by apply effect_submit.
    + by apply effect_none.
  - unfold remove_listener. case_decide.
    2: { apply effect_none, same_correlator_refl. }
    destruct (filter _ _).
    + by apply effect_submit.
    + by apply effect_none.
  - destruct d as [|[cid result|a payload]]; cbn.
    + by apply effect_none.
    + unfold on_reply. destruct (pending s !! cid) as [e|] eqn:He.
      * by apply effect_settle.
      * apply effect_none, same_correlator_refl.
    + by apply effect_none.
  - unfold on_timeout. destruct (pending s !! cid) as [e|] eqn:He.
    + case_decide.
      * by apply effect_settle.
      * apply effect_none, same_correlator_refl.
    + apply effect_none, same_correlator_refl.
Qed.

Lemma times_completed_same s s' t :
  completions s' = completions s → times_completed t s' = times_completed t s.
Proof. unfold times_completed. by intros ->. Qed.

Lemma wf_same s s' :
  wf s → same_correlator s s' → (∀ a, NoDup (subscribers a s')) → wf s'.
Proof.
  intros [Hi Hd Hw Hu _] (Hp & Hr & Hc & Hn & _) Hreg.
  split; rewrite ?Hp, ?Hr, ?Hn; try done.
  - intros cid e He. rewrite (times_completed_same s s') by done. eauto.
  - intros t Ht. rewrite (times_completed_same s s') by done. eauto.
Qed.

Lemma wf_submit now a op args timeout s :
  wf s → wf (submit now a op args timeout s).2.
Proof.
  intros [Hi Hd Hw Hu Hreg].
  assert (Hfresh : pending s !! fresh (dom (pending s)) = None).
  { apply not_elem_of_dom, is_fresh. }
  split; simpl.
  - intros cid e [[<- <-]|[? He]]%lookup_insert_Some; simpl; [lia|].
    apply Hi in He. lia.
  - intros c1 c2 e1 e2 [[<- <-]|[? H1]]%lookup_insert_Some
                       [[<- <-]|[? H2]]%lookup_insert_Some; simpl; try done.
    + intros Ht. apply Hi in H2. lia.
    + intros Ht. apply Hi in H1. lia.
    + eauto.
  - intros cid e [[<- <-]|[? He]]%lookup_insert_Some; simpl.
    + apply Hu. lia.
    + by apply Hw in He.
  - intros t Ht. apply Hu. lia.
  - done.
Qed.

Lemma wf_settle cid e r s :
  wf s → pending s !! cid = Some e → wf (settle cid e r s).
Proof.
  intros [Hi Hd Hw Hu Hreg] He.
  destruct (Hw _ _ He) as [Hre _].
  split; simpl.
  - intros c' e' [? He']%lookup_delete_Some. eauto.
  - intros c1 c2 e1 e2 [? H1]%lookup_delete_Some [? H2]%lookup_delete_Some.
    eauto.
  - intros c' e' [Hne He']%lookup_delete_Some.
    assert (ticket e ≠ ticket e') by (intros Ht; eauto).
    destruct (Hw _ _ He') as [Hr' Hc'].
    rewrite times_completed_settle, Hc'. unfold complete. rewrite Hre.
    rewrite lookup_insert_ne by done. by case_decide.
  - intros t Ht. destruct (Hu t Ht) as [Hr' Hc'].
    apply Hi in He.
    rewrite times_completed_settle, Hc'. unfold complete. rewrite Hre.
    rewrite lookup_insert_ne by lia. split; [done|]. case_decide; lia.
  - done.
Qed.

Lemma subscribers_with subs a s :
  subscribers a (with_subscriptions subs s) = default [] (subs !! a).
Proof. done. Qed.

Lemma registry_step i s :
  (∀ a, NoDup (subscribers a s)) → ∀ a, NoDup (subscribers a (step i s)).
Proof.
  intros Hreg a'.
  destruct i as [now timeout a|now timeout a v|now timeout a m args
                |now timeout a cb|now timeout a cb|d|cid t]; cbn;
    try apply Hreg.
  - unfold add_listener. case_decide as Hin; [apply Hreg|].
    assert (NoDup (default [] (<[a := subscribers a s ++ [cb]]>
                                 (subscriptions s) !! a'))) as Hnew.
    { destruct (decide (a = a')) as [->|?].
      - rewrite lookup_insert_eq. simpl. apply NoDup_app.
        split_and!; [apply Hreg| |apply NoDup_singleton].
        intros x Hx ->%list_elem_of_singleton. done.
      - rewrite lookup_insert_ne by done. apply Hreg. }
    by destruct (subscribers a s).
  - unfold remove_listener. case_decide as Hin; [|apply Hreg].
    assert (NoDup (default [] (<[a := filter (λ x, x ≠ cb) (subscribers a s)]>
                                 (subscriptions s) !! a'))) as Hnew.
    { destruct (decide (a = a')) as [->|?].
      - rewrite lookup_insert_eq. simpl. apply NoDup_filter, Hreg.
      - rewrite lookup_insert_ne by done. apply Hreg. }
    by destruct (filter _ _).
  - destruct d as [|[c result|a payload]]; cbn; try apply Hreg.
    unfold on_reply. destruct (pending s !! c); apply Hreg.
  - unfold on_timeout. destruct (pending s !! cid); [|apply Hreg].
    case_decide; apply Hreg.
Qed.

Lemma wf_init : wf init.
Proof.
  split; try done.
  intros a. unfold subscribers. simpl. rewrite lookup_empty. constructor.
Qed.

Lemma wf_step i s : wf s → wf (step i s).
Proof.
  intros Hwf.
  pose proof (registry_step i s (wf_registry s Hwf)) as Hreg.
  destruct (step_effect i s) as [s' Hsame|s1 now a op args timeout Hsame|
                                 cid e r He].
  - by apply (wf_same s).
  - apply wf_submit, (wf_same s); [done|done|exact Hreg].
  - by apply wf_settle.
Qed.

Lemma steps_snoc inputs i s : steps (inputs ++ [i]) s = step i (steps inputs s).
Proof. unfold steps. by rewrite foldl_app. Qed.

Lemma wf_steps inputs s : wf s → wf (steps inputs s).
Proof.
  revert s. induction inputs as [|i inputs IH]; intros s Hwf; [done|].
  apply IH, wf_step, Hwf.
Qed.

Lemma wf_reachable inputs : wf (steps inputs init).
Proof. apply wf_steps, wf_init. Qed.

(** *** A pending request and the inputs that are not for it *)

Lemma pending_submit now a op args timeout s cid e :
  pending s !! cid = Some e →
  pending (submit now a op args timeout s).2 !! cid = Some e.
Proof.
  intros He. simpl. rewrite lookup_insert_ne; [done|].
  intros Heq. apply (is_fresh (dom (pending s))).
  rewrite Heq. apply elem_of_dom. eauto.
Qed.

Lemma unanswered_step s cid e i :
  pending s !! cid = Some e →
  answer_to cid (ticket e) i = None →
  pending (step i s) !! cid = Some e.
Proof.
  intros He Hi.
  destruct i as [now timeout a|now timeout a v|now timeout a m args
                |now timeout a cb|now timeout a cb|d|c t]; cbn.
  - by apply pending_submit.
  - by apply pending_submit.
  - by apply pending_submit.
  - unfold add_listener. case_decide; [done|].
    destruct (subscribers a s); [by apply pending_submit|done].
  - unfold remove_listener. case_decide; [|done].
    destruct (filter _ _); [by apply pending_submit|done].
  - destruct d as [|[c result|a payload]]; cbn; try done.
    cbn in Hi. case_decide as Hc; [done|].
    unfold on_reply. destruct (pending s !! c); [|done].
    simpl. by rewrite lookup_delete_ne.
  - cbn in Hi. case_decide as Hc; [done|].
    unfold on_timeout. destruct (pending s !! c) as [e'|] eqn:He'; [|done].
    case_decide as Ht; [|done]. simpl.
    rewrite lookup_delete_ne; [done|]. intros ->. naive_solver.
Qed.

Lemma unanswered_steps inputs s cid e :
  pending s !! cid = Some e →
  first_answer cid (ticket e) inputs = None →
  pending (steps inputs s) !! cid = Some e.
Proof.
  revert s. induction inputs as [|i inputs IH]; intros s He Hfa; [done|].
  simpl in Hfa. destruct (answer_to cid (ticket e) i) eqn:Hi; [done|].
  apply IH; [|done]. by apply unanswered_step.
Qed.

(** *** The input that is for it *)

Lemma answered_step s cid e i r :
  pending s !! cid = Some e →
  answer_to cid (ticket e) i = Some r →
  step i s = settle cid e r s.
Proof.
  intros He Hi. destruct i as [| | | | |[|[c result|]]|c t]; try done.
  - cbn in Hi. case_decide; simplify_eq. cbn. unfold on_reply. by rewrite He.
  - cbn in Hi. case_decide as Hc; simplify_eq. destruct Hc as [-> ->].
    cbn. unfold on_timeout. rewrite He. by rewrite decide_True.
Qed.

Lemma settle_completes s cid e r :
  wf s → pending s !! cid = Some e →
  replies (settle cid e r s) !! ticket e = Some r ∧
  times_completed (ticket e) (settle cid e r s) = 1 ∧
  pending (settle cid e r s) !! cid = None.
Proof.
  intros Hwf He. destruct (wf_waiting s Hwf _ _ He) as [Hr Hc].
  rewrite times_completed_settle, Hc, decide_True by done. simpl.
  unfold complete. rewrite Hr, lookup_insert_eq, lookup_delete_eq. done.
Qed.

(** *** Once completed, always completed, and the same way *)

Lemma completed_effect s s' t r :
  wf s → effect s s' → replies s !! t = Some r →
  replies s' !! t = Some r ∧ times_completed t s' = times_completed t s.
Proof.
  intros Hwf Heff Hr.
  destruct Heff as [s' (_ & Hr' & Hc' & _)|s1 now a op args timeout
                    (_ & Hr' & Hc' & _)|cid e r' He].
  - rewrite Hr'. split; [done|]. by apply times_completed_same.
  - simpl. rewrite Hr'. split; [done|].
    unfold times_completed. simpl. by rewrite Hc'.
  - destruct (wf_waiting s Hwf _ _ He) as [Hre _].
    assert (ticket e ≠ t) by (intros <-; congruence).
    rewrite times_completed_settle, decide_False by done. simpl.
    unfold complete. rewrite Hre, lookup_insert_ne by done. split; [done|lia].
Qed.

Lemma completed_steps inputs s t r :
  wf s → replies s !! t = Some r →
  replies (steps inputs s) !! t = Some r ∧
  times_completed t (steps inputs s) = times_completed t s.
Proof.
  revert s. induction inputs as [|i inputs IH]; intros s Hwf Hr; [done|].
  destruct (completed_effect s (step i s) t r Hwf (step_effect i s) Hr)
    as [Hr1 Hc1].
  simpl. destruct (IH (step i s) (wf_step i s Hwf) Hr1) as [Hr2 Hc2].
  split; [done|congruence].
Qed.

Lemma reply_of_pending inputs s cid e :
  wf s → pending s !! cid = Some e →
  replies (steps inputs s) !! ticket e = first_answer cid (ticket e) inputs ∧
  times_completed (ticket e) (steps inputs s) =
    match first_answer cid (ticket e) inputs with Some _ => 1 | None => 0 end.
Proof.
  revert s. induction inputs as [|i inputs IH]; intros s Hwf He.
  { apply (wf_waiting s Hwf _ _ He). }
  simpl. destruct (answer_to cid (ticket e) i) as [r|] eqn:Hi.
  - rewrite (answered_step s cid e i r He Hi).
    destruct (settle_completes s cid e r Hwf He) as (Hr & Hc & _).
    destruct (completed_steps inputs _ _ _ (wf_settle cid e r s Hwf He) Hr)
      as [Hr' Hc'].
    split; [done|congruence].
  - apply IH; [by apply wf_step|by apply unanswered_step].
Qed.

(** Requests submitted one after the other with nothing in between are
    pending together, each with a PendingReply of its own. *)
Lemma submissions_pend_together (subs : list Input) s :
  Forall is_submission subs →
  next_ticket (steps subs s) = next_ticket s + length subs ∧
  ∀ k, k < length subs →
    ∃ cid e, pending (steps subs s) !! cid = Some e ∧
             ticket e = next_ticket s + k.
Proof.
  induction subs as [|i subs IH] using rev_ind; intros Hsubs.
  { split; [simpl; lia|]. simpl. intros k Hk. lia. }
  apply Forall_app in Hsubs as [Hsubs Hi%Forall_inv].
  destruct (IH Hsubs) as [Hnext Hpend].
  rewrite steps_snoc, length_app. simpl.
  assert (∃ now a op args timeout,
            step i (steps subs s) =
              (submit now a op args timeout (steps subs s)).2)
    as (now & a & op & args & timeout & ->).
  { destruct i as [now timeout a|now timeout a v|now timeout a m args
                  | | | |]; simpl in Hi; try (by destruct Hi).
    - by exists now, a, OpGet, [], timeout.
    - by exists now, a, OpSet, [v], timeout.
    - by exists now, a, (OpCall m), args, timeout. }
  split; [simpl; lia|]. intros k Hk.
  destruct (decide (k < length subs)) as [Hlt|Hge].
  - destruct (Hpend k Hlt) as (cid & e & He & Ht).
    exists cid, e. split; [by apply pending_submit|done].
  - eexists _, _. split; [apply lookup_insert_eq|]. simpl. lia.
Qed.

(** C1: take any requests that are pending together in a reachable state
    of the core (they were submitted concurrently; as keys of the pending
    map their correlation ids are pairwise distinct).  Whatever inputs
    follow, replies in any order, duplicated, late or for no request at
    all, timers, further submissions, the PendingReply of each request
    ends as the first input that bears its own correlation id says (the
    reply's result, or Timeout when that input is its own timer), the
    correlator completes it once and no more, and it is none of the
    PendingReplys of the other requests. *)
Theorem each_reply_reaches_its_request (pre inputs : list Input) cid e :
  let s := steps pre init in
  pending s !! cid = Some e →
  (replies (steps inputs s) !! ticket e
     = first_answer cid (ticket e) inputs) ∧
  (times_completed (ticket e) (steps inputs s) =
     match first_answer cid (ticket e) inputs with
     | Some _ => 1
     | None => 0
     end) ∧
  (∀ cid' e', pending s !! cid' = Some e' → cid' ≠ cid →
     ticket e' ≠ ticket e).
Proof.
  intros s He. pose proof (wf_reachable pre) as Hwf. fold s in Hwf.
  destruct (reply_of_pending inputs s cid e Hwf He) as [Hr Hc].
  split_and!; [done..|].
  intros cid' e' He' Hne Ht. apply Hne.
  by apply (wf_distinct s Hwf cid' cid e' e).
Qed.

(** C3: a request is submitted in a reachable state of the core; no
    reply bearing its correlation id arrives among the inputs that follow
    and its timer has not fired among them.  The request is then still
    pending and its PendingReply not completed; when its timer fires the
    PendingReply fails with Timeout, the pending entry is removed, and the
    correlation id is outside the pending map, where [submit] takes the
    ids of the requests submitted from then on. *)
Theorem unanswered_request_times_out (pre inputs : list Input)
    now a op args timeout :
  let s0 := steps pre init in
  let cid := fresh (dom (pending s0)) in
  let t := (submit now a op args timeout s0).1 in
  let s1 := (submit now a op args timeout s0).2 in
  first_answer cid t inputs = None →
  let s2 := steps inputs s1 in
  let s3 := step (TimerFired cid t) s2 in
  (∃ e, pending s2 !! cid = Some e ∧ ticket e = t ∧
        correlation_id (request e) = cid) ∧
  replies s2 !! t = None ∧
  replies s3 !! t = Some (Rejected Timeout) ∧
  pending s3 !! cid = None ∧
  cid ∉ dom (pending s3).
Proof.
  intros s0 cid t s1 Hfa s2 s3.
  pose proof (wf_reachable pre) as Hwf0. fold s0 in Hwf0.
  assert (wf s1) as Hwf1 by apply wf_submit, Hwf0.
  set (e := {| request := {| correlation_id := cid; address := a;
                             operation := op; arguments := args;
                             created_at := now |};
               ticket := t; deadline := now + timeout |}).
  assert (pending s1 !! cid = Some e) as He1 by apply lookup_insert_eq.
  assert (pending s2 !! cid = Some e) as He2 by by apply unanswered_steps.
  assert (wf s2) as Hwf2 by apply wf_steps, Hwf1.
  assert (s3 = settle cid e (Rejected Timeout) s2) as ->.
  { apply answered_step; [done|]. simpl. by rewrite decide_True. }
  destruct (settle_completes s2 cid e (Rejected Timeout) Hwf2 He2)
    as (Hr & _ & Hp).
  split_and!; [by exists e| |done|done|by apply not_elem_of_dom].
  apply (wf_waiting s2 Hwf2 _ _ He2).
Qed.

(** *** What a step hands to the transport *)

Lemma sent_between_same s s' : outbox s' = outbox s → sent_between s s' = [].
Proof. unfold sent_between. intros ->. by rewrite drop_all. Qed.

Lemma sent_between_app s s' sent :
  outbox s' = outbox s ++ sent → sent_between s s' = sent.
Proof. unfold sent_between. intros ->. by rewrite drop_app_length. Qed.

Lemma outbox_step i s : ∃ sent, outbox (step i s) = outbox s ++ sent.
Proof.
  destruct (step_effect i s) as [s' (_ & _ & _ & _ & Ho)|
                                 s1 now a op args timeout (_ & _ & _ & _ & Ho)|
                                 cid e r He].
  - exists []. by rewrite app_nil_r.
  - eexists. simpl. by rewrite Ho.
  - exists []. by rewrite app_nil_r.
Qed.

Lemma outbox_steps inputs s : ∃ sent, outbox (steps inputs s) = outbox s ++ sent.
Proof.
  revert s. induction inputs as [|i inputs IH]; intros s.
  - exists []. by rewrite app_nil_r.
  - destruct (outbox_step i s) as [sent1 H1].
    destruct (IH (step i s)) as [sent2 H2].
    exists (sent1 ++ sent2). simpl. by rewrite H2, H1, (assoc_L (++)).
Qed.

Lemma sent_between_cons i inputs s :
  sent_between s (steps (i :: inputs) s) =
    sent_between s (step i s)
      ++ sent_between (step i s) (steps inputs (step i s)).
Proof.
  destruct (outbox_step i s) as [sent1 H1].
  destruct (outbox_steps inputs (step i s)) as [sent2 H2].
  rewrite (sent_between_app _ _ _ H1), (sent_between_app _ _ _ H2).
  apply sent_between_app. simpl. by rewrite H2, H1, (assoc_L (++)).
Qed.

Lemma notifications_app a reqs reqs' :
  notifications a (reqs ++ reqs') = notifications a reqs ++ notifications a reqs'.
Proof. unfold notifications. by rewrite filter_app, fmap_app. Qed.

Lemma toggle_same n : toggle n n = [].
Proof. by destruct n as [|[|n]]. Qed.

Lemma filter_other_absent (l : list Callback) x :
  x ∉ l → filter (λ y, y ≠ x) l = l.
Proof.
  induction l as [|y l IH]; intros Hx; [done|].
  apply not_elem_of_cons in Hx as [? ?].
  rewrite filter_cons_True by done. f_equal. by apply IH.
Qed.

Lemma length_filter_other (l : list Callback) x :
  NoDup l → x ∈ l → S (length (filter (λ y, y ≠ x) l)) = length l.
Proof.
  induction 1 as [|y l Hy Hl IH]; intros Hx; [by apply elem_of_nil in Hx|].
  rewrite filter_cons. case_decide as Hyx.
  - simpl. f_equal. apply IH. apply elem_of_cons in Hx as [->|?]; done.
  - assert (y = x) as -> by by destruct (decide (y = x)).
    simpl. f_equal. f_equal. by apply filter_other_absent.
Qed.

Lemma notifications_submit a now a' op args timeout s s1 :
  outbox s1 = outbox s →
  notifications a (sent_between s (submit now a' op args timeout s1).2) =
    if decide (a' = a ∧ (op = EnableNotify ∨ op = DisableNotify))
    then [op] else [].
Proof.
  intros Ho. rewrite (sent_between_app _ _ [_]) by (simpl; by rewrite Ho).
  unfold notifications. rewrite filter_cons, filter_nil. simpl.
  by repeat case_decide.
Qed.

Lemma count_with a a' l s :
  subscription_count a
    (with_subscriptions (<[a' := l]> (subscriptions s)) s) =
    if decide (a' = a) then length l else subscription_count a s.
Proof.
  unfold subscription_count. rewrite subscribers_with.
  case_decide as Ha.
  - subst. by rewrite lookup_insert_eq.
  - by rewrite lookup_insert_ne.
Qed.

(** One step: the enable/disable requests it sends for [a] are those the
    change of [a]'s subscription count calls for. *)
Lemma toggle_step a i s :
  wf s →
  notifications a (sent_between s (step i s)) =
    toggle (subscription_count a s) (subscription_count a (step i s)).
Proof.
  intros Hwf.
  destruct i as [now timeout a'|now timeout a' v|now timeout a' m args
                |now timeout a' cb|now timeout a' cb|d|cid t]; cbn [step].
  - unfold get_prop. rewrite notifications_submit by done.
    rewrite decide_False by (by intros [_ [?|?]]).
    symmetry. apply toggle_same.
  - unfold set_prop. rewrite notifications_submit by done.
    rewrite decide_False by (by intros [_ [?|?]]).
    symmetry. apply toggle_same.
  - unfold call_method. rewrite notifications_submit by done.
    rewrite decide_False by (by intros [_ [?|?]]).
    symmetry. apply toggle_same.
  - unfold add_listener. case_decide as Hin.
    { by rewrite sent_between_same, toggle_same. }
    destruct (subscribers a' s) as [|x l] eqn:Hsubs.
    + rewrite notifications_submit by done.
      change (subscription_count a (submit _ _ _ _ _ ?s1).2)
        with (subscription_count a s1).
      rewrite count_with. destruct (decide (a' = a)) as [->|Ha].
      * unfold subscription_count at 1. rewrite Hsubs.
        by rewrite decide_True by auto.
      * rewrite toggle_same. by rewrite decide_False by (by intros [? _]).
    + rewrite sent_between_same by done. rewrite count_with.
      destruct (decide (a' = a)) as [->|Ha]; [|by rewrite toggle_same].
      unfold subscription_count at 1. rewrite Hsubs.
      rewrite length_app. simpl. by destruct (length l).
  - unfold remove_listener. case_decide as Hin.
    2: { by rewrite sent_between_same, toggle_same. }
    pose proof (length_filter_other _ _ (wf_registry s Hwf a') Hin) as Hlen.
    destruct (filter _ (subscribers a' s)) as [|x l] eqn:Hrest.
    + rewrite notifications_submit by done.
      change (subscription_count a (submit _ _ _ _ _ ?s1).2)
        with (subscription_count a s1).
      rewrite count_with. destruct (decide (a' = a)) as [->|Ha].
      * unfold subscription_count at 1. rewrite <- Hlen.
        by rewrite decide_True by auto.
      * rewrite toggle_same. by rewrite decide_False by (by intros [? _]).
    + rewrite sent_between_same by done. rewrite count_with.
      destruct (decide (a' = a)) as [->|Ha]; [|by rewrite toggle_same].
      unfold subscription_count at 1. rewrite <- Hlen.
      simpl. by destruct (length l).
  - destruct d as [|[c result|a' payload]]; cbn [on_receive decode].
    + by rewrite sent_between_same, toggle_same.
    + unfold on_reply. destruct (pending s !! c);
        by rewrite sent_between_same, toggle_same.
    + by rewrite sent_between_same, toggle_same.
  - unfold on_timeout. destruct (pending s !! cid);
      [case_decide|]; by rewrite sent_between_same, toggle_same.
Qed.

Lemma toggle_steps a inputs s :
  wf s →
  notifications a (sent_between s (steps inputs s)) =
    expected_toggles a inputs s.
Proof.
  revert s. induction inputs as [|i inputs IH]; intros s Hwf.
  - by rewrite sent_between_same.
  - rewrite sent_between_cons, notifications_app. cbn [expected_toggles].
    f_equal; [by apply toggle_step|]. apply IH, wf_step, Hwf.
Qed.

Lemma subscribers_step a i s :
  subscribers a (step i s) = listeners_step a (subscribers a s) i.
Proof.
  destruct i as [now timeout a'|now timeout a' v|now timeout a' m args
                |now timeout a' cb|now timeout a' cb|d|cid t];
    cbn [step listeners_step]; try done.
  - destruct (decide (a' = a ∧ cb ∉ subscribers a s)) as [[-> Hin]|Hno].
    + unfold add_listener. rewrite decide_False by done.
      transitivity (subscribers a (with_subscriptions
        (<[a := subscribers a s ++ [cb]]> (subscriptions s)) s)).
      { by destruct (subscribers a s). }
      rewrite subscribers_with. by rewrite lookup_insert_eq.
    + unfold add_listener.
      destruct (decide (cb ∈ subscribers a' s)) as [Hin|Hin]; [done|].
      transitivity (subscribers a (with_subscriptions
        (<[a' := subscribers a' s ++ [cb]]> (subscriptions s)) s)).
      { by destruct (subscribers a' s). }
      rewrite subscribers_with, lookup_insert_ne; [done|].
      intros ->. by apply Hno.
  - unfold remove_listener.
    destruct (decide (cb ∈ subscribers a' s)) as [Hin|Hin].
    + transitivity (subscribers a (with_subscriptions
        (<[a' := filter (λ x, x ≠ cb) (subscribers a' s)]>
           (subscriptions s)) s)).
      { by destruct (filter _ _). }
      rewrite subscribers_with. destruct (decide (a' = a)) as [->|Ha].
      * by rewrite lookup_insert_eq.
      * by rewrite lookup_insert_ne.
    + destruct (decide (a' = a)) as [->|Ha]; [|done].
      by rewrite filter_other_absent.
  - destruct d as [|[c result|a' payload]]; cbn [on_receive decode];
      try done.
    unfold on_reply. by destruct (pending s !! c).
  - unfold on_timeout. destruct (pending s !! cid); [|done].
    by case_decide.
Qed.

Lemma subscribers_steps a inputs s :
  subscribers a (steps inputs s) =
    foldl (listeners_step a) (subscribers a s) inputs.
Proof.
  revert s. induction inputs as [|i inputs IH]; intros s; [done|].
  simpl. by rewrite IH, subscribers_step.
Qed.

Lemma subscribers_reachable a inputs :
  subscribers a (steps inputs init) = listeners_after a inputs.
Proof.
  rewrite subscribers_steps. unfold listeners_after, subscribers. simpl.
  by rewrite lookup_empty.
Qed.

Lemma toggles_from_steps a inputs s :
  expected_toggles a inputs s = toggles_from a (subscribers a s) inputs.
Proof.
  revert s. induction inputs as [|i inputs IH]; intros s; [done|].
  simpl. unfold subscription_count. by rewrite IH, subscribers_step.
Qed.

(** C7: over any inputs processed from a reachable state of the core, and
    for any address, the callbacks registered for the address are those
    the add and remove calls made so far leave (an add of a new callback
    raises the count by one, the remove of a registered one lowers it by
    one, and nothing else changes it), and the enable/disable requests
    sent for the address are, in order, exactly those the successive
    counts call for: one "enable notifications" where the count goes from
    0 to 1, one "disable notifications" where it goes from 1 to 0, and
    nothing for any other step, in particular for an add or a remove that
    leaves the count positive. *)
Theorem notifications_follow_count (pre inputs : list Input) a :
  let s := steps pre init in
  notifications a (sent_between s (steps inputs s)) =
    expected_toggles a inputs s ∧
  (∀ i, notifications a (sent_between s (step i s)) =
          toggle (subscription_count a s) (subscription_count a (step i s))) ∧
  (∀ n m, toggle n m =
     if decide (n = 0 ∧ m = 1) then [EnableNotify]
     else if decide (n = 1 ∧ m = 0) then [DisableNotify]
     else []) ∧
  subscribers a s = listeners_after a pre ∧
  notifications a (sent_between s (steps inputs s)) =
    toggles_from a (listeners_after a pre) inputs ∧
  (∀ now timeout cb,
     subscription_count a (step (AddListener now timeout a cb) s) =
       if decide (cb ∈ subscribers a s) then subscription_count a s
       else S (subscription_count a s)) ∧
  (∀ now timeout cb,
     S (subscription_count a (step (RemoveListener now timeout a cb) s)) =
       if decide (cb ∈ subscribers a s) then subscription_count a s
       else S (subscription_count a s)) ∧
  (∀ i, (∀ now timeout cb, i ≠ AddListener now timeout a cb) →
        (∀ now timeout cb, i ≠ RemoveListener now timeout a cb) →
        subscribers a (step i s) = subscribers a s).
Proof.
  intros s. pose proof (wf_reachable pre) as Hwf. fold s in Hwf.
  split_and!.
  - by apply toggle_steps.
  - intros i. by apply toggle_step.
  - intros [|[|n]] [|[|m]]; simpl; repeat case_decide; try done;
      exfalso; lia.
  - apply subscribers_reachable.
  - rewrite toggle_steps by done. rewrite toggles_from_steps.
    unfold s. by rewrite subscribers_reachable.
  - intros now timeout cb. unfold subscription_count.
    rewrite subscribers_step. cbn [listeners_step].
    destruct (decide (cb ∈ subscribers a s)) as [Hin|Hin].
    + rewrite decide_False; [done|]. by intros [_ ?].
    + rewrite decide_True by done. rewrite length_app. simpl. lia.
  - intros now timeout cb. unfold subscription_count.
    rewrite subscribers_step. cbn [listeners_step].
    rewrite decide_True by done.
    destruct (decide (cb ∈ subscribers a s)) as [Hin|Hin].
    + apply length_filter_other; [apply (wf_registry s Hwf)|done].
    + by rewrite filter_other_absent.
  - intros i Hadd Hrem. rewrite subscribers_step.
    destruct i as [| | |now timeout a' cb|now timeout a' cb| |];
      cbn [listeners_step]; try done.
    + rewrite decide_False; [done|]. intros [-> _]. by eapply Hadd.
    + rewrite decide_False; [done|]. intros ->. by eapply Hrem.
Qed.

(** *** One request answered by the host *)

Lemma exchange_submit now a op args timeout s store :
  wf s →
  let req := {| correlation_id := fresh (dom (pending s)); address := a;
                operation := op; arguments := args; created_at := now |} in
  let s1 := (submit now a op args timeout s).2 in
  ∀ store' result,
    host_answer req store = (store', Carrying (Reply (correlation_id req) result)) →
    (exchange s1 store).2 = store' ∧
    replies (exchange s1 store).1 !! next_ticket s = Some (outcome result) ∧
    next_ticket (exchange s1 store).1 = S (next_ticket s) ∧
    wf (exchange s1 store).1.
Proof.
  intros Hwf req s1 store' result Hhost.
  assert (wf s1) as Hwf1 by apply wf_submit, Hwf.
  set (e := {| request := req; ticket := next_ticket s;
               deadline := now + timeout |}).
  assert (pending s1 !! correlation_id req = Some e) as He
    by apply lookup_insert_eq.
  assert (exchange s1 store =
          (settle (correlation_id req) e (outcome result) s1, store')) as ->.
  { unfold exchange. replace (last (outbox s1)) with (Some req)
      by (symmetry; apply last_snoc).
    rewrite Hhost. cbn [on_receive decode]. unfold on_reply. by rewrite He. }
  destruct (settle_completes s1 _ e (outcome result) Hwf1 He) as (Hr & _ & _).
  split_and!; [done|done|done|by apply wf_settle].
Qed.

(** C2: in any reachable state of the core and against any store of the
    echoing host, [setProp(a, v)] awaited and then [getProp(a)] awaited
    resolve, the first to the acknowledgement and the second to [v]. *)
Theorem set_then_get_round_trip (pre : list Input)
    now1 timeout1 now2 timeout2 a v store :
  set_then_get now1 timeout1 now2 timeout2 a v (steps pre init) store =
    (Some (Resolved VUndefined), Some (Resolved v)).
Proof.
  pose proof (wf_reachable pre) as Hwf.
  set (s := steps pre init) in *.
  unfold set_then_get, set_prop, get_prop.
  destruct (exchange_submit now1 a OpSet [v] timeout1 s store Hwf
              (<[a := v]> store) (inl VUndefined) eq_refl)
    as (Hstore & Hr1 & Hn1 & Hwf2).
  destruct (submit now1 a OpSet [v] timeout1 s) as [t1 s1] eqn:Hs1.
  assert (t1 = next_ticket s) as -> by by inversion Hs1.
  cbn [snd] in *.
  destruct (exchange s1 store) as [s2 store2] eqn:Hx1. cbn [fst snd] in *.
  subst store2.
  destruct (exchange_submit now2 a OpGet [] timeout2 s2 (<[a := v]> store) Hwf2
              (<[a := v]> store) (inl v)) as (_ & Hr2 & _ & _).
  { unfold host_answer. cbn. by rewrite lookup_insert_eq. }
  destruct (submit now2 a OpGet [] timeout2 s2) as [t2 s3] eqn:Hs3.
  assert (t2 = next_ticket s2) as -> by by inversion Hs3.
  cbn [snd] in *.
  destruct (exchange s3 (<[a := v]> store)) as [s4 store4].
  cbn [fst] in *. by rewrite Hr1, Hr2.
Qed.

End CoreFacts.

(** ** The core properties at concrete runs *)

Section CoreInstances.
Import Core.

Lemma each_reply_reaches_its_request_witness :
  replies (steps unruly_transport (steps two_requests init)) !! 0
    = Some (Rejected (ProtocolError "no such property")) ∧
  times_completed 0 (steps unruly_transport (steps two_requests init)) = 1 ∧
  (∀ cid' e', pending (steps two_requests init) !! cid' = Some e' →
     cid' ≠ 0 → ticket e' ≠ 0).
Proof.
  apply (each_reply_reaches_its_request two_requests unruly_transport
           0 first_request).
  reflexivity.
Defined.

Lemma unanswered_request_times_out_witness :
  let s0 := steps two_requests init in
  let s1 := (submit 12 sample_volume OpGet [] 2000 s0).2 in
  let s2 := steps unruly_transport s1 in
  let s3 := step (TimerFired 2 2) s2 in
  (∃ e, pending s2 !! 2 = Some e ∧ ticket e = 2 ∧
        correlation_id (request e) = 2) ∧
  replies s2 !! 2 = None ∧
  replies s3 !! 2 = Some (Rejected Timeout) ∧
  pending s3 !! 2 = None ∧
  2 ∉ dom (pending s3).
Proof.
  apply (unanswered_request_times_out two_requests unruly_transport
           12 sample_volume OpGet [] 2000).
  reflexivity.
Defined.

Lemma notifications_follow_count_witness :
  subscribers sample_volume
    (step (Receive Garbled) (steps listener_traffic init)) =
  subscribers sample_volume (steps listener_traffic init).
Proof.
  destruct (notifications_follow_count listener_traffic [] sample_volume)
    as (_ & _ & _ & _ & _ & _ & _ & Hother).
  apply Hother; discriminate.
Defined.

(** The id of a request that timed out is given to a later request. *)
Example timed_out_id_is_reused :
  let s := steps [GetProp 10 2000 sample_volume; TimerFired 0 0] init in
  replies s !! 0 = Some (Rejected Timeout) ∧
  correlation_id <$> last (outbox (step (SetProp 13 2000 sample_name VNull) s))
    = Some 0.
Proof. by vm_compute. Qed.

(** The enable and disable requests of [listener_traffic] for the volume
    address: one enable for the first listener, one disable when the last
    one leaves, one enable when a listener comes back. *)
Example listener_traffic_toggles :
  notifications sample_volume
    (sent_between init (steps listener_traffic init))
  = [EnableNotify; DisableNotify; EnableNotify].
Proof. by vm_compute. Qed.

End CoreInstances.

(** * Further properties of the facades *)

Section FacadeExtras.
Context `{Externals}.

(** Splits an operation into the class and the method it is. *)
Ltac every_method op :=
  destruct op as [this m|this m|this m];
  [ destruct m
  | destruct m as [m| | | | | | | | | | | |]; [destruct m|..]
  | destruct m ].

(** By cases on what a constructor, or a [map] of one, gives. *)
Ltac made :=
  repeat match goal with
  | |- context [construct (newDevice ?a ?d)] =>
      destruct (newDevice a d); cbn
  | |- context [construct (newDeviceParameter ?a ?d)] =>
      destruct (newDeviceParameter a d); cbn
  | |- context [construct (map_each ?f ?xs)] =>
      destruct (map_each f xs); cbn
  end.

Lemma calls_of_method (op : Operation) S (h : Handler S) s :
  length (exec h (run op) s).1.1 =
    match purpose op with Local => 0 | _ => 1 end ∧
  Forall (addressed_to (receiver op) (stored_path op))
         (exec h (run op) s).1.1 ∧
  ∀ S' (h' : Handler S') s',
    (exec h' (run op) s').1.1 = (exec h (run op) s).1.1.
Proof.
  every_method op; cbn -[js_object js_map];
    try match goal with
    | |- context [h ?c s] =>
        destruct (h c s) as [[v|?] ?]; cbn;
        try match goal with
        | |- context [js_map v] => destruct v; cbn
        end; made
    end;
    (split_and!; [done|by repeat constructor|]);
    intros S' h' s';
    try match goal with
    | |- context [h' ?c s'] =>
        destruct (h' c s') as [[v'|?] ?]; cbn;
        try match goal with
        | |- context [js_map v'] => destruct v'; cbn
        end; made
    end; done.
Qed.

(** X5: whatever the client answers, a method calls it once, and not at
    all when it is [id] or [toJSON]; the call is on the stored client, a
    [getProp]/[setProp] names the stored path with an undefined id, and the
    calls made do not depend on the client's answers: no method retries or
    follows up. *)
Theorem calls_are_well_addressed (op : Operation) S (h : Handler S) s :
  length (exec h (run op) s).1.1 =
    match purpose op with Local => 0 | _ => 1 end ∧
  Forall (addressed_to (receiver op) (stored_path op))
         (exec h (run op) s).1.1 ∧
  ∀ S' (h' : Handler S') s',
    (exec h' (run op) s').1.1 = (exec h (run op) s).1.1.
Proof. apply calls_of_method. Qed.

Lemma map_each_resolved {B} (f : Value → Settled B) xs bs :
  map_each f xs = Resolved bs → Forall2 (λ x b, f x = Resolved b) xs bs.
Proof.
  revert bs. induction xs as [|x xs IH]; intros bs Hbs; simpl in Hbs.
  { injection Hbs as <-. constructor. }
  destruct (f x) as [b|e] eqn:Hx; [|done].
  destruct (map_each f xs) as [bs'|e]; [|done].
  injection Hbs as <-. constructor; [done|]. by apply IH.
Qed.

Lemma map_each_rejected {B} (f : Value → Settled B) xs e :
  map_each f xs = Rejected e →
  ∃ i x, xs !! i = Some x ∧ f x = Rejected e ∧
         ∀ j y, j < i → xs !! j = Some y → ∃ b, f y = Resolved b.
Proof.
  induction xs as [|x xs IH]; intros He; simpl in He; [done|].
  destruct (f x) as [b|e'] eqn:Hx.
  - destruct (map_each f xs) as [bs'|e'] eqn:Hxs; [done|].
    injection He as ->. destruct (IH eq_refl) as (i & y & Hi & Hy & Hbefore).
    exists (S i), y. split_and!; [done..|].
    intros [|j] z Hj Hz; simplify_eq/=; [by eexists|].
    apply (Hbefore j); [lia|done].
  - injection He as ->. exists 0, x. split_and!; [done..|]. intros; lia.
Qed.

(** What a collection getter resolves to, given how its [getProp] call
    ended and the constructor [make] of its wrappers. *)
Lemma collection_outcome {B} (make : Value → Settled B)
    (answer : Settled Value) (r : Settled (list B)) :
  r = match answer with
      | Resolved (VArr xs) => map_each make xs
      | Resolved _ => Rejected (JsError "TypeError")
      | Rejected e => Rejected e
      end →
  match answer with
  | Resolved (VArr xs) =>
      match r with
      | Resolved bs => Forall2 (λ x b, make x = Resolved b) xs bs
      | Rejected e =>
          ∃ i x, xs !! i = Some x ∧ make x = Rejected e ∧
                 ∀ j y, j < i → xs !! j = Some y → ∃ b, make y = Resolved b
      end
  | Resolved _ => r = Rejected (JsError "TypeError")
  | Rejected e => r = Rejected e
  end.
Proof.
  intros ->. destruct answer as [[]|]; try done.
  destruct (map_each make xs) eqn:Hm.
  - by apply map_each_resolved.
  - by apply map_each_rejected.
Qed.

(** X1: [Chain.getDevices] and [ChainMixerDevice.getSends] make the one
    [getProp] call for [devices] (resp. [sends]).  When it resolves to an
    array, the wrappers are constructed from the stored client and the
    elements, from left to right: if every constructor returns, the method
    resolves to the wrappers, one per element and in order (none for the
    empty array); if one throws, the method rejects with the exception of
    the first that does.  When the call resolves to anything but an array
    the method rejects with a TypeError, and when it rejects the method
    rejects with the same error: unlike [getDevice] and [getSend], nothing
    is caught. *)
Theorem collection_getter_wraps_each S (h : Handler S) s :
  (∀ this : Chain.t,
     let c := getProp (Chain.ableton this) (Chain.path this) VUndefined
                "devices" in
     let make := newDevice (Chain.ableton this) in
     ∃ r, exec h (Chain.getDevices this) s = ([c], (h c s).2, r) ∧
       match (h c s).1 with
       | Resolved (VArr xs) =>
           match r with
           | Resolved ds => Forall2 (λ x d, make x = Resolved d) xs ds
           | Rejected e =>
               ∃ i x, xs !! i = Some x ∧ make x = Rejected e ∧
                 ∀ j y, j < i → xs !! j = Some y → ∃ d, make y = Resolved d
           end
       | Resolved _ => r = Rejected (JsError "TypeError")
       | Rejected e => r = Rejected e
       end) ∧
  (∀ this : ChainMixerDevice.t,
     let c := getProp (ChainMixerDevice.ableton this)
                (ChainMixerDevice.path this) VUndefined "sends" in
     let make := newDeviceParameter (ChainMixerDevice.ableton this) in
     ∃ r, exec h (ChainMixerDevice.getSends this) s = ([c], (h c s).2, r) ∧
       match (h c s).1 with
       | Resolved (VArr xs) =>
           match r with
           | Resolved ps => Forall2 (λ x p, make x = Resolved p) xs ps
           | Rejected e =>
               ∃ i x, xs !! i = Some x ∧ make x = Rejected e ∧
                 ∀ j y, j < i → xs !! j = Some y → ∃ p, make y = Resolved p
           end
       | Resolved _ => r = Rejected (JsError "TypeError")
       | Rejected e => r = Rejected e
       end).
Proof.
  split; intros this c make; subst c;
    unfold Chain.getDevices, ChainMixerDevice.getSends, mbind, Prog_bind;
    rewrite exec_bind, exec_await;
    eexists; (split; [|apply (collection_outcome make); reflexivity]);
    destruct (h _ s) as [[v|e] s1]; cbn [fst snd]; [|done| |done];
    (destruct v; try done); cbn; fold make; by destruct (map_each make xs).
Qed.

(** X2: [getChainActivator], [getPanning] and [getVolume] make the one
    [getProp] call for their property and catch nothing: they reject with
    the call's error when the call rejects and with the constructor's
    exception when the constructor throws on the data received;
    otherwise they resolve to the DeviceParameter constructed from the
    stored client and the data, never to null. *)
Theorem parameter_getter_wraps_data (this : ChainMixerDevice.t)
    S (h : Handler S) s :
  Forall (λ '(method, prop),
     let c := getProp (ChainMixerDevice.ableton this)
                (ChainMixerDevice.path this) VUndefined prop in
     exec h (method this) s =
       ([c], (h c s).2,
        match (h c s).1 with
        | Resolved data =>
            newDeviceParameter (ChainMixerDevice.ableton this) data
        | Rejected e => Rejected e
        end))
    [ (ChainMixerDevice.getChainActivator, "chain_activator");
      (ChainMixerDevice.getPanning, "panning");
      (ChainMixerDevice.getVolume, "volume") ].
Proof.
  repeat constructor; cbn; destruct (h _ s) as [[d|?] ?]; cbn; try done;
    by destruct (newDeviceParameter _ d).
Qed.

(** X3: the mixer device that [Chain.getMixerDevice] resolves to holds the
    chain's client and the data received, but not the chain's path: its
    path is the empty string, so every call made through it names the
    empty namespace, wherever the chain itself is stored. *)
Theorem mixer_of_chain_has_empty_path (this : Chain.t) S (h : Handler S) s :
  let c := getProp (Chain.ableton this) (Chain.path this) VUndefined
             "mixer_device" in
  ∃ r, exec h (Chain.getMixerDevice this) s = ([c], (h c s).2, r) ∧
    match (h c s).1 with
    | Resolved mixerData =>
        ∃ mixer, r = Resolved mixer ∧
          ChainMixerDevice.ableton mixer = Chain.ableton this ∧
          ChainMixerDevice.raw mixer = asRawChainMixerDevice mixerData ∧
          ChainMixerDevice.path mixer = "" ∧
          ∀ m S' (h' : Handler S') s',
            Forall (addressed_to (Chain.ableton this) "")
              (exec h' (ChainMixerDeviceMethod.invoke m mixer) s').1.1
    | Rejected e => r = Rejected e
    end.
Proof.
  intros c; subst c. unfold Chain.getMixerDevice, mbind, Prog_bind.
  rewrite exec_bind, exec_await.
  destruct (h _ s) as [[d|e] s1]; cbn; eexists; (split; [done|]); [|done].
  eexists. split; [done|]. split_and!; [done..|].
  intros m S' h' s'.
  exact (proj1 (proj2 (calls_of_method
    (OnChainMixerDevice
       {| ChainMixerDevice.ableton := Chain.ableton this;
          ChainMixerDevice.raw := asRawChainMixerDevice d;
          ChainMixerDevice.path := "" |} m) S' h' s'))).
Qed.

(** X6: every setter has a getter that reads what it wrote: the two name
    the same client, path and property, so against a client that echoes
    state a set followed by the get resolves to the value set. *)
Theorem set_then_get_through_facade (op g : Operation) prop v store :
  getter_of op = Some g →
  purpose op = Writes prop v →
  purpose g = Reads prop ∧
  receiver g = receiver op ∧
  stored_path g = stored_path op ∧
  exec echo_client (run op ≫= λ _, run g) store =
    ([setProp (receiver op) (stored_path op) VUndefined prop v;
      getProp (receiver op) (stored_path op) VUndefined prop],
     <[(stored_path op, prop) := v]> store,
     Resolved (Plain v)).
Proof.
  intros Hg Hp.
  every_method op; cbn in Hg; try discriminate Hg; simplify_eq;
    cbn in Hp; simplify_eq;
    (split_and!; [done..|]); cbn; by rewrite lookup_insert_eq.
Qed.

(** X8: every add-listener method has a remove-listener method that undoes
    it: for the same listener it calls [removeListener] on the same
    client with the same key. *)
Theorem remove_matches_add (op op' : Operation) S (h : Handler S) s
    S' (h' : Handler S') s' :
  remover_of op = Some op' →
  length (exec h (run op) s).1.1 = 1 ∧
  (exec h' (run op') s').1.1 = as_removal <$> (exec h (run op) s).1.1 ∧
  (exec h (run op) s).1.1 ≠ (exec h' (run op') s').1.1.
Proof.
  intros Hr.
  every_method op; cbn in Hr; try discriminate Hr; simplify_eq; cbn;
    destruct (h _ s) as [[?|?] ?]; destruct (h' _ s') as [[?|?] ?]; done.
Qed.

(** *** The embedding into values loses nothing *)

Lemma VObj_inj (m1 m2 : JsObject) : VObj m1 = VObj m2 → m1 = m2.
Proof.
  intros Hm. exact (f_equal (λ v, match v with VObj m => m | _ => m1 end) Hm).
Qed.

Lemma Ret_inj {A} (a b : A) : Ret a = Ret b → a = b.
Proof.
  intros Hr. exact (f_equal (λ p, match p with Ret x => x | _ => a end) Hr).
Qed.

Lemma VArr_inj (xs ys : list Value) : VArr xs = VArr ys → xs = ys.
Proof.
  intros Hl. exact (f_equal (λ v, match v with VArr l => l | _ => xs end) Hl).
Qed.

Lemma IdRef_toValue_inj (a b : IdRef.t) : toValue a = toValue b → a = b.
Proof.
  destruct a as [a], b as [b]. unfold toValue, IdRef.IdRef_ToValue. simpl.
  intros Hm%VObj_inj. apply (f_equal (.!! "id")) in Hm.
  rewrite !lookup_singleton_eq in Hm. congruence.
Qed.

Lemma DeviceRef_toValue_inj (a b : DeviceRef.t) :
  toValue a = toValue b → a = b.
Proof.
  destruct a as [a1 a2], b as [b1 b2].
  unfold toValue, DeviceRef.DeviceRef_ToValue. simpl. intros Hm%VObj_inj.
  pose proof (f_equal (.!! "id") Hm) as H1.
  pose proof (f_equal (.!! "type") Hm) as H2.
  rewrite !lookup_insert_eq in H1.
  rewrite !lookup_insert_ne, !lookup_singleton_eq in H2 by done.
  congruence.
Qed.

Lemma ParamRef_toValue_inj (a b : ParamRef.t) :
  toValue a = toValue b → a = b.
Proof.
  destruct a as [a1 a2], b as [b1 b2].
  unfold toValue, ParamRef.ParamRef_ToValue. simpl. intros Hm%VObj_inj.
  pose proof (f_equal (.!! "id") Hm) as H1.
  pose proof (f_equal (.!! "value") Hm) as H2.
  rewrite !lookup_insert_eq in H1.
  rewrite !lookup_insert_ne, !lookup_singleton_eq in H2 by done.
  congruence.
Qed.

Lemma list_toValue_inj `{ToValue A} (xs ys : list A) :
  (∀ a b : A, toValue a = toValue b → a = b) →
  toValue xs = toValue ys → xs = ys.
Proof.
  intros Hinj.
  change (VArr (toValue <$> xs) = VArr (toValue <$> ys) → xs = ys).
  intros Hl%VArr_inj.
  revert ys Hl. induction xs as [|x xs IH]; intros [|y ys] Hl;
    simplify_eq/=; [done|]. f_equal; eauto.
Qed.

(** The field [k] of two equal object literals. *)
Ltac field Ho k :=
  let Hk := fresh "Hk" in
  pose proof (f_equal (.!! k) Ho) as Hk;
  rewrite !js_object_lookup in Hk; cbn [last_defined] in Hk;
  repeat first [ rewrite decide_False in Hk by discriminate
               | rewrite decide_True in Hk by reflexivity ];
  apply (inj Some) in Hk.

(** X9: [toJSON] leaves no field of the raw snapshot out: two instances
    whose [toJSON] agree have the same raw snapshot, whatever their
    clients and paths, which [toJSON] does not show. *)
Theorem toJSON_determines_snapshot :
  (∀ a b : Chain.t,
     Chain.toJSON a = Chain.toJSON b → Chain.raw a = Chain.raw b) ∧
  (∀ a b : DrumChain.t,
     DrumChain.toJSON a = DrumChain.toJSON b →
     DrumChain.raw a = DrumChain.raw b) ∧
  (∀ a b : ChainMixerDevice.t,
     ChainMixerDevice.toJSON a = ChainMixerDevice.toJSON b →
     ChainMixerDevice.raw a = ChainMixerDevice.raw b).
Proof.
  assert (∀ a b : Chain.t,
            Chain.toJSON a = Chain.toJSON b → Chain.raw a = Chain.raw b)
    as Hchain.
  { intros [? [] ?] [? [] ?] Ho%Ret_inj.
    cbn [Chain.raw RawChain.id RawChain.name RawChain.color
         RawChain.color_index RawChain.is_auto_colored RawChain.mute
         RawChain.solo RawChain.devices RawChain.mixer_device] in *.
    field Ho "id". field Ho "name". field Ho "color".
    field Ho "color_index". field Ho "is_auto_colored". field Ho "mute".
    field Ho "solo". field Ho "devices". field Ho "mixer_device".
    clear Ho. apply (list_toValue_inj _ _ DeviceRef_toValue_inj) in Hk6.
    apply IdRef_toValue_inj in Hk7.
    unfold toValue, number_ToValue, string_ToValue, bool_ToValue in *.
    by simplify_eq. }
  split_and!; [done| |].
  - intros a b Ho.
    unfold DrumChain.toJSON, mbind, Prog_bind, Chain.toJSON in Ho.
    cbn [bind] in Ho. apply Ret_inj in Ho.
    assert (RawDrumChain.base (DrumChain.raw a) =
            RawDrumChain.base (DrumChain.raw b)) as Hbase.
    { apply (Hchain (DrumChain.super a) (DrumChain.super b)).
      unfold Chain.toJSON. f_equal. apply map_eq. intros k.
      pose proof (f_equal (.!! k) Ho) as Hk.
      rewrite !js_object_lookup in Hk. rewrite !js_object_lookup.
      cbn [last_defined] in Hk |- *. clear Ho.
      repeat case_decide; subst; first [exact Hk | done]. }
    destruct a as [? [] ?], b as [? [] ?].
    cbn [DrumChain.raw RawDrumChain.base RawDrumChain.choke_group
         RawDrumChain.out_of_key RawDrumChain.auto_select_on_receive] in *.
    field Ho "choke_group". field Ho "out_of_key".
    field Ho "auto_select_on_receive". clear Ho.
    unfold toValue, number_ToValue, bool_ToValue in *. by simplify_eq.
  - intros [? [] ?] [? [] ?] Ho%Ret_inj.
    cbn [ChainMixerDevice.raw RawChainMixerDevice.id
         RawChainMixerDevice.canonical_parent
         RawChainMixerDevice.chain_activator RawChainMixerDevice.panning
         RawChainMixerDevice.sends RawChainMixerDevice.volume] in *.
    field Ho "id". field Ho "canonical_parent". field Ho "chain_activator".
    field Ho "panning". field Ho "sends". field Ho "volume".
    clear Ho. apply IdRef_toValue_inj in Hk0.
    apply ParamRef_toValue_inj in Hk1, Hk2, Hk4.
    apply (list_toValue_inj _ _ ParamRef_toValue_inj) in Hk3.
    unfold toValue, number_ToValue in *. by simplify_eq.
Qed.

(** X7: the listener methods observe what the getters read: the key
    under which [addXListener] registers is the property name that [getX]
    asks for, on the same client. *)
Theorem listener_key_is_getter_property (op op' : Operation) l
    S (h : Handler S) s S' (h' : Handler S') s' :
  listener_of l op = Some op' →
  ∃ prop,
    (exec h (run op) s).1.1 =
      [getProp (receiver op) (stored_path op) VUndefined prop] ∧
    (exec h' (run op') s').1.1 = [addListener (receiver op) prop l].
Proof.
  intros Hl.
  every_method op; cbn in Hl; try discriminate Hl; simplify_eq;
    eexists; cbn -[js_map];
    destruct (h _ s) as [[v|?] ?]; destruct (h' _ s') as [[?|?] ?];
    cbn -[js_map]; try done; try (destruct v; cbn); by made.
Qed.

End FacadeExtras.

(** ** The further properties at concrete instances *)

Section FacadeExtraInstances.
#[local] Existing Instance wrappers_as_pairs.

Lemma set_then_get_through_facade_witness :
  let this := sample_drum_chain "live_set tracks 0 devices 0 chains 1" in
  let op := OnDrumChain this (DrumChainMethod.SetChokeGroup 3%Z) in
  let g := OnDrumChain this DrumChainMethod.GetChokeGroup in
  exec echo_client (run op ≫= λ _, run g) ∅ =
    ([setProp 0 "live_set tracks 0 devices 0 chains 1" VUndefined
        "choke_group" (VNum 3%Z);
      getProp 0 "live_set tracks 0 devices 0 chains 1" VUndefined
        "choke_group"],
     {[ ("live_set tracks 0 devices 0 chains 1", "choke_group") := VNum 3%Z ]},
     Resolved (Plain (VNum 3%Z))).
Proof.
  intros this op g.
  apply (set_then_get_through_facade op g "choke_group" (VNum 3%Z) ∅);
    reflexivity.
Defined.

Lemma remove_matches_add_witness :
  let this := sample_mixer "" in
  (exec (always (Resolved VUndefined))
     (run (OnChainMixerDevice this
             (ChainMixerDeviceMethod.RemoveVolumeListener 4))) tt).1.1
  = [removeListener 0 "volume" 4].
Proof.
  intros this.
  apply (remove_matches_add
           (OnChainMixerDevice this
              (@ChainMixerDeviceMethod.AddVolumeListener wrappers_as_pairs 4))
           (OnChainMixerDevice this
              (@ChainMixerDeviceMethod.RemoveVolumeListener
                 wrappers_as_pairs 4))
           unit (always (Resolved VUndefined)) tt
           unit (always (Resolved VUndefined)) tt eq_refl).
Defined.

Lemma listener_key_is_getter_property_witness :
  ∃ prop,
    (exec (always (Resolved (VArr [])))
       (run (OnChain (sample_chain "live_set tracks 0")
               ChainMethod.GetDevices)) tt).1.1
      = [getProp 0 "live_set tracks 0" VUndefined prop] ∧
    (exec (always (Resolved VUndefined))
       (run (OnChain (sample_chain "live_set tracks 0")
               (ChainMethod.AddDevicesListener 4))) tt).1.1
      = [addListener 0 prop 4].
Proof.
  apply (listener_key_is_getter_property
           (OnChain (sample_chain "live_set tracks 0") ChainMethod.GetDevices)
           (OnChain (sample_chain "live_set tracks 0")
              (@ChainMethod.AddDevicesListener wrappers_as_pairs 4))
           (4 : @Listener wrappers_as_pairs)
           unit (always (Resolved (VArr []))) tt
           unit (always (Resolved VUndefined)) tt eq_refl).
Defined.

Lemma toJSON_determines_snapshot_witness :
  Chain.raw (sample_chain "live_set tracks 0") =
  Chain.raw (sample_chain "live_set tracks 1").
Proof.
  apply (proj1 toJSON_determines_snapshot
           (sample_chain "live_set tracks 0")
           (sample_chain "live_set tracks 1")).
  reflexivity.
Defined.

End FacadeExtraInstances.
